(** * Microservices-Golang: token service, rate limiter, cache accessor
      and partial-update builder, embedded and verified.

    Source files embedded here:
    - [shared/utils/jwt.go], package utils: modules [JWT] and [TokenLife]
    - [shared/middleware/middleware.go], package middleware: modules
      [Limiter] and [Pipeline]
    - the file of package database that declares [RedisClient]: modules
      [Cache] and [Store]
    - the file of package main that declares [UserRepository],
      [UserService] and [UserHandler]: modules [Users], [Accounts] and
      [Joining]
    - [shared/utils/response.go], package utils: module [Paging]
    - [shared/database/postgres.go], package database: module [Postgres]
    - the file of package main that declares [ProductService]: module
      [Products]

    Third-party packages the sources call (golang-jwt, go-redis,
    x/time/rate, encoding/json, database/sql) are not part of the
    repository; each is represented by an explicit interface or by a
    definition whose comment starts with "Modelled from the spec". *)

From Stdlib Require Import ZArith QArith Qminmax Lia.
From Stdlib Require Import Ascii String DecimalString DecimalZ.
From stdpp Require Import base option list gmap strings pretty.

Local Open Scope string_scope.
Local Open Scope list_scope.
Local Open Scope Z_scope.

(** Membership in an explicit list, decided by walking it. *)
Ltac in_list := repeat first [apply list_elem_of_here | apply list_elem_of_further].
Ltac not_in_list H :=
  repeat (apply elem_of_cons in H as [H|H]; [discriminate H|]);
  by apply elem_of_nil in H.

(** ** Go errors and results *)

(** A Go [error] value.  [New] is [errors.New] / [fmt.Errorf] without
    [%w]; [Wrap p e] is [fmt.Errorf(p + "%w", e)]; [Lib] is an error
    value produced inside a third-party package. *)
Inductive LibError :=
  | jwt_Malformed
  | jwt_Unverifiable (msg : string)
  | jwt_BadSignature
  | jwt_Expired
  | jwt_NotYetValid
  | redis_Nil
  | redis_Unavailable
  | redis_NotInteger
  | json_Invalid
  | sql_Failure (msg : string).

Inductive error :=
  | New (msg : string)
  | Wrap (prefix : string) (cause : error)
  | Lib (e : LibError).

#[global] Instance LibError_eq_dec : EqDecision LibError.
Proof. solve_decision. Defined.

#[global] Instance error_eq_dec : EqDecision error.
Proof. solve_decision. Defined.

(** The text of a library error.  The wording belongs to the libraries;
    no property below depends on it. *)
Definition LibError_text (e : LibError) : string :=
  match e with
  | jwt_Malformed => "token is malformed"
  | jwt_Unverifiable msg => msg
  | jwt_BadSignature => "signature is invalid"
  | jwt_Expired => "token is expired"
  | jwt_NotYetValid => "token is not valid yet"
  | redis_Nil => "redis: nil"
  | redis_Unavailable => "redis: connection unavailable"
  | redis_NotInteger => "ERR value is not an integer or out of range"
  | json_Invalid => "invalid JSON"
  | sql_Failure msg => msg
  end.

(** [err.Error()] *)
Fixpoint Error (e : error) : string :=
  match e with
  | New msg => msg
  | Wrap p c => p +:+ Error c
  | Lib l => LibError_text l
  end.

(** [errors.Unwrap(err)] *)
Definition Unwrap (e : error) : option error :=
  match e with
  | Wrap _ c => Some c
  | _ => None
  end.

(** A Go [(T, error)] return pair in which exactly one side is meaningful. *)
Inductive Res (A : Type) :=
  | Ok (a : A)
  | Err (e : error).
Arguments Ok {A} a.
Arguments Err {A} e.

(** [time.Duration] and instants are counted in nanoseconds. *)
Definition millisecond : Z := 1000000.
Definition second : Z := 1000000000.

(** Decimal text of an integer ([strconv.FormatInt]) and its reading
    back. *)
Definition dec (z : Z) : string := NilEmpty.string_of_int (Z.to_int z).
Definition undec (s : string) : option Z := Z.of_int <$> NilEmpty.int_of_string s.

Lemma undec_dec (z : Z) : undec (dec z) = Some z.
Proof. unfold undec, dec. rewrite NilEmpty.isi; cbn. by rewrite DecimalZ.of_to. Qed.

(** ** The user service's partial update (package main) *)

Module Users.

(** A value handed to the SQL driver as a positional argument. *)
Inductive Arg :=
  | AString (s : string)
  | ABool (b : bool)
  | ATime (t : Z)
  | AInt (n : Z).

(** [type UpdateUserRequest struct]; [IsActive] is a [*bool]. *)
Record UpdateUserRequest := {
  Username : string;
  Email : string;
  FullName : string;
  IsActive : option bool
}.

(** [func joinStrings(strings []string, separator string) string] *)
Definition joinStrings (strings : list string) (separator : string) : string :=
  match strings with
  | [] => ""
  | s0 :: rest => foldl (λ result s, result +:+ separator +:+ s) s0 rest
  end.

(** The three accumulators of the [for field, value := range updates]
    loop of [UserRepository.UpdateUser]. *)
Record Builder := {
  setParts : list string;
  args : list Arg;
  argIndex : Z
}.

Definition add_field (b : Builder) (fv : string * Arg) : Builder :=
  {| setParts := setParts b ++ [fv.1 +:+ " = $" +:+ pretty (argIndex b)];
     args := args b ++ [fv.2];
     argIndex := argIndex b + 1 |}.

(** The statement and argument vector [UserRepository.UpdateUser] hands
    to [db.Exec], for the sequence [entries] in which [range] yields the
    map, the identifier [id] and the clock reading [now]. *)
Definition UpdateUser_statement (id : Z) (entries : list (string * Arg)) (now : Z)
  : string * list Arg :=
  let b := foldl add_field {| setParts := []; args := []; argIndex := 1 |} entries in
  let setParts1 := setParts b ++ ["updated_at = $" +:+ pretty (argIndex b)] in
  let args1 := args b ++ [ATime now] in
  let argIndex1 := argIndex b + 1 in
  let args2 := args1 ++ [AInt id] in
  ("UPDATE users SET " +:+ joinStrings setParts1 ", " +:+ " WHERE id = $" +:+ pretty argIndex1,
   args2).

Section Service.
(** The database handle and the three ways the code touches it. *)
Variable DB : Type.
Variable CheckUsernameExists : DB → string → Z → Res bool.
Variable CheckEmailExists : DB → string → Z → Res bool.
(** [db.Exec(query, args...)] followed by [result.RowsAffected()]. *)
Variable Exec : DB → string → list Arg → Res Z * DB.
(** The order in which [range] walks a map: unspecified in Go, any
    enumeration of the entries. *)
Variable range : gmap string Arg → list (string * Arg).

(** [func (ur *UserRepository) UpdateUser(id int, updates map[string]interface{}) error] *)
Definition UserRepository_UpdateUser (id : Z) (updates : gmap string Arg) (now : Z) (db : DB)
  : option error * DB :=
  if decide (size updates = 0%nat) then (Some (New "no fields to update"), db)
  else
    let '(query, args) := UpdateUser_statement id (range updates) now in
    match Exec db query args with
    | (Err err, db') => (Some (Wrap "failed to update user: " err), db')
    | (Ok rowsAffected, db') =>
        if rowsAffected =? 0 then (Some (New "user not found"), db') else (None, db')
    end.

(** The map [UserService.UpdateUser] fills before it calls the
    repository, or the error it returns early with. *)
Definition UpdateUser_updates (id : Z) (req : UpdateUserRequest) (db : DB)
  : Res (gmap string Arg) :=
  let updates : gmap string Arg := ∅ in
  let step1 :=
    if decide (Username req = "") then Ok updates
    else match CheckUsernameExists db (Username req) id with
         | Err err => Err (Wrap "failed to check username: " err)
         | Ok true => Err (New "username already exists")
         | Ok false => Ok (<["username" := AString (Username req)]> updates)
         end in
  match step1 with
  | Err e => Err e
  | Ok updates =>
    let step2 :=
      if decide (Email req = "") then Ok updates
      else match CheckEmailExists db (Email req) id with
           | Err err => Err (Wrap "failed to check email: " err)
           | Ok true => Err (New "email already exists")
           | Ok false => Ok (<["email" := AString (Email req)]> updates)
           end in
    match step2 with
    | Err e => Err e
    | Ok updates =>
      let updates :=
        if decide (FullName req = "") then updates
        else <["full_name" := AString (FullName req)]> updates in
      let updates :=
        match IsActive req with
        | None => updates
        | Some b => <["is_active" := ABool b]> updates
        end in
      Ok updates
    end
  end.

(** [func (us *UserService) UpdateUser(id int, req UpdateUserRequest) error] *)
Definition UserService_UpdateUser (id : Z) (req : UpdateUserRequest) (now : Z) (db : DB)
  : option error * DB :=
  match UpdateUser_updates id req db with
  | Err e => (Some e, db)
  | Ok updates => UserRepository_UpdateUser id updates now db
  end.

End Service.


(** The statement template for a column sequence, as the spec describes
    it: one [col = $i] per column, numbered from 1, then the row filter. *)
Definition template (columns : list string) : string :=
  "UPDATE users SET "
  +:+ joinStrings (imap (λ i c, c +:+ " = $" +:+ pretty (Z.of_nat i + 1)) columns) ", "
  +:+ " WHERE id = $" +:+ pretty (Z.of_nat (length columns) + 1).

(** The spec's example: a request carrying only a full name. *)
Definition ann_request : UpdateUserRequest :=
  {| Username := ""; Email := ""; FullName := "Ann"; IsActive := None |}.

(** *** Properties of the statement builder *)

Lemma foldl_add_field (entries : list (string * Arg)) (b : Builder) :
  foldl add_field b entries =
  {| setParts := setParts b ++
       imap (λ i (fv : string * Arg), fv.1 +:+ " = $" +:+ pretty (argIndex b + Z.of_nat i)) entries;
     args := args b ++ entries.*2;
     argIndex := argIndex b + Z.of_nat (length entries) |}.
Proof.
  revert b. induction entries as [|fv entries IH]; intros b.
  - destruct b as [sp ar ix]; cbn. by rewrite !app_nil_r, Z.add_0_r.
  - cbn [foldl]. rewrite IH. unfold add_field at 1 2 3; cbn [setParts args argIndex].
    rewrite imap_cons, fmap_cons, <- !app_assoc; cbn [app length].
    f_equal; [|unfold add_field; cbn [argIndex]; lia].
    do 2 f_equal; [by rewrite Z.add_0_r|].
    apply imap_ext; intros i x _; cbn. do 3 f_equal. lia.
Qed.

(** The text handed to [db.Exec] is the template over the map's keys in
    iteration order followed by [updated_at]; the values travel in the
    argument vector only. *)
Lemma UpdateUser_statement_template (id : Z) (entries : list (string * Arg)) (now : Z) :
  UpdateUser_statement id entries now =
  (template (entries.*1 ++ ["updated_at"]), entries.*2 ++ [ATime now; AInt id]).
Proof.
  unfold UpdateUser_statement, template. rewrite foldl_add_field; cbn [setParts args argIndex].
  rewrite <- !app_assoc; cbn [app]. f_equal.
  rewrite imap_app, imap_fmap, length_app, length_fmap; cbn [imap length].
  replace (1 + Z.of_nat (length entries) + 1) with (Z.of_nat (length entries + 1) + 1) by lia.
  replace (Z.of_nat (length entries + 0) + 1) with (1 + Z.of_nat (length entries)) by lia.
  do 4 f_equal.
  apply imap_ext; intros i x _; cbn. do 3 f_equal. lia.
Qed.


(** What [UserService.UpdateUser] does once its map holds a field: the
    one statement it executes is [UpdateUser_statement] over the map. *)
Lemma UserService_UpdateUser_exec {DB : Type} (cu ce : DB → string → Z → Res bool)
    (Exec : DB → string → list Arg → Res Z * DB)
    (range : gmap string Arg → list (string * Arg))
    (id : Z) (req : UpdateUserRequest) (now : Z) (db : DB) (updates : gmap string Arg) :
  UpdateUser_updates DB cu ce id req db = Ok updates →
  size updates ≠ 0%nat →
  UserService_UpdateUser DB cu ce Exec range id req now db =
  match Exec db (UpdateUser_statement id (range updates) now).1
                (UpdateUser_statement id (range updates) now).2 with
  | (Err err, db') => (Some (Wrap "failed to update user: " err), db')
  | (Ok rows, db') => if rows =? 0 then (Some (New "user not found"), db') else (None, db')
  end.
Proof.
  intros Hu Hsz. unfold UserService_UpdateUser, UserRepository_UpdateUser.
  rewrite Hu. case_decide; [done|].
  by destruct (UpdateUser_statement id (range updates) now).
Qed.


(** The repository on its own names whatever keys the map it is given
    has; that only the four columns ever get there is the service's
    doing. *)
Lemma UpdateUser_statement_any_key (id now : Z) :
  UpdateUser_statement id [("role", AString "admin")] now =
  ("UPDATE users SET role = $1, updated_at = $2 WHERE id = $3",
   [AString "admin"; ATime now; AInt id]).
Proof. rewrite UpdateUser_statement_template. by vm_compute. Qed.

(** The statement for the spec's example. *)
Lemma ann_statement (id now : Z) :
  ∃ updates,
    UpdateUser_updates unit (λ _ _ _, Ok false) (λ _ _ _, Ok false) id ann_request tt = Ok updates ∧
    UpdateUser_statement id (map_to_list updates) now =
    ("UPDATE users SET full_name = $1, updated_at = $2 WHERE id = $3",
     [AString "Ann"; ATime now; AInt id]).
Proof.
  eexists. split; [reflexivity|].
  rewrite UpdateUser_statement_template. by vm_compute.
Qed.


End Users.

(** ** The rate-limiting middleware ([middleware.go]) *)

Module Limiter.

(** Modelled from the spec: the token bucket behind [rate.NewLimiter]
    and [limiter.Allow] (package [golang.org/x/time/rate], not part of
    the repository).  Section 3 gives the state (available tokens, a
    real number in [0, capacity]; last-refill instant; capacity; refill
    rate) and section 4.2 the admission step.  Instants are nanoseconds,
    token counts are rationals. *)
Record RateLimiterState := {
  tokens : Q;
  lastRefill : Z;
  capacity : Q;
  rate : Q
}.

(** Modelled from the spec: [rate.NewLimiter(rate.Limit(r), b)]; the
    bucket starts full. *)
Definition NewLimiter (r b : Z) (now : Z) : RateLimiterState :=
  {| tokens := inject_Z b; lastRefill := now; capacity := inject_Z b; rate := inject_Z r |}.

(** Modelled from the spec: the lazy refill of section 4.2,
    newTokens = min(capacity, currentTokens + elapsed * R). *)
Definition refilled (st : RateLimiterState) (now : Z) : Q :=
  Qmin (capacity st) (tokens st + (inject_Z (now - lastRefill st) / inject_Z second) * rate st).

(** Modelled from the spec: [limiter.Allow()], the [allow()] of section
    4.2.  If the refilled count reaches one token, spend it, record the
    instant and return true; otherwise return false, keeping the refill
    just computed. *)
Definition Allow (st : RateLimiterState) (now : Z) : bool * RateLimiterState :=
  let newTokens := refilled st now in
  if Qle_bool 1 newTokens
  then (true, {| tokens := newTokens - 1; lastRefill := now;
                 capacity := capacity st; rate := rate st |})
  else (false, {| tokens := newTokens; lastRefill := now;
                  capacity := capacity st; rate := rate st |}).

(** What the handler does with the request: [c.Next()] or
    [c.JSON(status, gin.H{"error": .., "message": ..}); c.Abort()]. *)
Inductive Outcome :=
  | Next
  | Abort (status : Z) (error_text message : string).

(** [func RateLimiter(requestsPerSecond int, burstSize int) gin.HandlerFunc]:
    the closure it returns, run on the limiter it captured. *)
Definition RateLimiter_handler (requestsPerSecond : Z) (limiter : RateLimiterState) (now : Z)
  : Outcome * RateLimiterState :=
  let '(ok, limiter') := Allow limiter now in
  if negb ok
  then (Abort 429 "Rate limit exceeded"
          ("Maximum " +:+ pretty requestsPerSecond +:+ " requests per second allowed"),
        limiter')
  else (Next, limiter').

Definition RateLimiter (requestsPerSecond burstSize : Z) (created : Z) : RateLimiterState :=
  NewLimiter requestsPerSecond burstSize created.

(** The answers of successive [Allow] calls made at the given instants. *)
Fixpoint allows (st : RateLimiterState) (instants : list Z) : list bool :=
  match instants with
  | [] => []
  | now :: rest => let '(ok, st') := Allow st now in ok :: allows st' rest
  end.

(** The outcomes of successive requests through the middleware. *)
Fixpoint serve (rps : Z) (st : RateLimiterState) (instants : list Z) : list Outcome :=
  match instants with
  | [] => []
  | now :: rest =>
      let '(o, st') := RateLimiter_handler rps st now in o :: serve rps st' rest
  end.

(** Moving the whole history by [d] nanoseconds changes no answer: the
    bucket looks at elapsed time only. *)
Definition shift (d : Z) (st : RateLimiterState) : RateLimiterState :=
  {| tokens := tokens st; lastRefill := lastRefill st + d;
     capacity := capacity st; rate := rate st |}.

(** *** The bucket's behaviour *)

Lemma Allow_shift (d : Z) (st : RateLimiterState) (now : Z) :
  Allow (shift d st) (now + d) = ((Allow st now).1, shift d (Allow st now).2).
Proof.
  unfold Allow, refilled, shift; cbn [tokens lastRefill capacity rate].
  replace (now + d - (lastRefill st + d)) with (now - lastRefill st) by lia.
  by destruct (Qle_bool 1 _).
Qed.

Lemma allows_shift (d : Z) (instants : list Z) (st : RateLimiterState) :
  allows (shift d st) ((λ t, t + d) <$> instants) = allows st instants.
Proof.
  revert st. induction instants as [|now rest IH]; intros st; [done|].
  cbn [fmap list_fmap allows]. rewrite Allow_shift.
  destruct (Allow st now) as [ok st']; cbn [fst snd]. by rewrite IH.
Qed.

Lemma serve_shift (rps d : Z) (instants : list Z) (st : RateLimiterState) :
  serve rps (shift d st) ((λ t, t + d) <$> instants) = serve rps st instants.
Proof.
  revert st. induction instants as [|now rest IH]; intros st; [done|].
  cbn [fmap list_fmap serve]. unfold RateLimiter_handler. rewrite Allow_shift.
  destruct (Allow st now) as [ok st']; cbn [fst snd].
  destruct ok; cbn [negb]; by rewrite IH.
Qed.

Lemma NewLimiter_shift (r b t0 : Z) : NewLimiter r b t0 = shift t0 (NewLimiter r b 0).
Proof. reflexivity. Qed.

(** The invariant of spec section 3: the available tokens stay within
    [0, capacity] across a call, whatever its answer. *)
Lemma Allow_tokens_bounded (st : RateLimiterState) (now : Z) :
  (0 <= tokens st)%Q → (0 <= rate st)%Q → (1 <= capacity st)%Q →
  lastRefill st ≤ now →
  (0 <= tokens (Allow st now).2)%Q ∧ (tokens (Allow st now).2 <= capacity (Allow st now).2)%Q.
Proof.
  intros Htok Hrate Hcap Hnow. unfold Allow.
  assert (Hel : (0 <= inject_Z (now - lastRefill st) / inject_Z second * rate st)%Q).
  { apply Qmult_le_0_compat; [|done].
    apply Qle_shift_div_l; [done|]. rewrite Qmult_0_l.
    change 0%Q with (inject_Z 0). rewrite <- Zle_Qle. lia. }
  assert (Hmin_le : (refilled st now <= capacity st)%Q) by apply Q.le_min_l.
  assert (Hmin_ge : (0 <= refilled st now)%Q).
  { unfold refilled. apply Q.min_glb; [|].
    - apply Qle_trans with 1%Q; [done|exact Hcap].
    - rewrite <- (Qplus_0_l 0). by apply Qplus_le_compat. }
  destruct (Qle_bool 1 (refilled st now)) eqn:Hle; cbn [snd tokens capacity].
  - apply Qle_bool_iff in Hle. split.
    + unfold Qminus. rewrite <- (Qplus_opp_r 1). apply Qplus_le_compat; [done|apply Qle_refl].
    + apply Qle_trans with (refilled st now); [|exact Hmin_le]. unfold Qminus.
      rewrite <- (Qplus_0_r (refilled st now)) at 2.
      apply Qplus_le_compat; [apply Qle_refl|done].
  - done.
Qed.

(** C5. Capacity 2 and rate 2 per second, starting full at any instant
    [t0]: the first two calls at [t0] are admitted, the third at [t0] is
    refused, and 500 ms later exactly one call is admitted, the next one
    at that instant being refused. *)
Theorem token_bucket_2_2_scenario (t0 : Z) :
  allows (NewLimiter 2 2 t0)
    [t0; t0; t0; t0 + 500 * millisecond; t0 + 500 * millisecond]
  = [true; true; false; true; false].
Proof.
  rewrite NewLimiter_shift.
  rewrite (Z.add_comm t0).
  change [t0; t0; t0; 500 * millisecond + t0; 500 * millisecond + t0]
    with ((λ t, t + t0) <$> [0; 0; 0; 500 * millisecond; 500 * millisecond]).
  rewrite allows_shift. by vm_compute.
Qed.

(** The same scenario seen through the middleware: admitted requests go
    on to the next handler, refused ones are aborted with status 429. *)
Lemma RateLimiter_2_2_scenario (t0 : Z) :
  serve 2 (RateLimiter 2 2 t0)
    [t0; t0; t0; t0 + 500 * millisecond; t0 + 500 * millisecond]
  = [Next; Next;
     Abort 429 "Rate limit exceeded" "Maximum 2 requests per second allowed";
     Next;
     Abort 429 "Rate limit exceeded" "Maximum 2 requests per second allowed"].
Proof.
  unfold RateLimiter. rewrite NewLimiter_shift.
  rewrite (Z.add_comm t0).
  change [t0; t0; t0; 500 * millisecond + t0; 500 * millisecond + t0]
    with ((λ t, t + t0) <$> [0; 0; 0; 500 * millisecond; 500 * millisecond]).
  rewrite serve_shift. by vm_compute.
Qed.

End Limiter.

(** ** The token service ([jwt.go]) *)

Module JWT.

(** [jwt.RegisteredClaims], the part the source fills in.  Instants are
    nanoseconds since the epoch. *)
Record RegisteredClaims := {
  ExpiresAt : Z;
  IssuedAt : Z;
  NotBefore : Z;
  Issuer : string;
  Subject : string
}.

(** [type JWTClaims struct] *)
Record JWTClaims := {
  UserID : string;
  Username : string;
  Email : string;
  Role : string;
  Registered : RegisteredClaims
}.

(** [type JWTManager struct] *)
Record JWTManager := {
  secretKey : string;
  issuer : string
}.

(** [func NewJWTManager(secretKey, issuer string) *JWTManager] *)
Definition NewJWTManager (secretKey issuer : string) : JWTManager :=
  {| secretKey := secretKey; issuer := issuer |}.

(** *** The wall clock

    [time.Now()] is a read of the outside world.  A clock is the
    sequence of readings still to come and the number already taken. *)
Record Clock := {
  reading : nat → Z;
  ticks : nat
}.

Definition Now (c : Clock) : Z * Clock :=
  (reading c (ticks c), {| reading := reading c; ticks := S (ticks c) |}).

(** Later readings are not earlier. *)
Definition monotone (c : Clock) : Prop :=
  ∀ i j : nat, (i ≤ j)%nat → reading c i ≤ reading c j.

(** The same clock after more readings have been taken. *)
Definition at_tick (c : Clock) (n : nat) : Clock :=
  {| reading := reading c; ticks := n |}.

(** *** The token library

    The primitives under package [github.com/golang-jwt/jwt/v4]: segment
    encoding, JSON of header and claims, the keyed MAC and the
    truncation [jwt.NewNumericDate] applies.  The repository does not
    contain them; they are an interface with the laws the wire format
    of spec section 6 relies on. *)
Class TokenCodec := {
  EncodeSegment : string → string;
  DecodeSegment : string → option string;
  MarshalHeader : string → string;
  UnmarshalHeader : string → option string;
  MarshalClaims : JWTClaims → string;
  UnmarshalClaims : string → option JWTClaims;
  HMAC : string → string → string → string;
  NewNumericDate : Z → Z;
  DecodeSegment_Encode : ∀ s, DecodeSegment (EncodeSegment s) = Some s;
  EncodeSegment_no_dot : ∀ s, "."%char ∉ list_ascii_of_string (EncodeSegment s);
  UnmarshalHeader_Marshal : ∀ alg, UnmarshalHeader (MarshalHeader alg) = Some alg;
  UnmarshalClaims_Marshal : ∀ c, UnmarshalClaims (MarshalClaims c) = Some c;
  NewNumericDate_le : ∀ t, NewNumericDate t ≤ t
}.

(** [strings.Split(s, sep)] for a one-character separator. *)
Fixpoint Split (sep : ascii) (s : string) : list string :=
  match s with
  | EmptyString => [""]
  | String c rest =>
      if decide (c = sep) then "" :: Split sep rest
      else match Split sep rest with
           | [] => [String c ""]
           | seg :: segs => String c seg :: segs
           end
  end.

(** Modelled from the spec: [jwt.SigningMethod], told apart the way the
    source's key function does. *)
Inductive SigningMethod :=
  | SigningMethodHMAC (alg : string)
  | SigningMethodOther (alg : string).

(** Modelled from the spec: the signing method a header's [alg] names
    (section 6: the header identifies the signing algorithm); the HMAC
    family, or some other. *)
Definition GetSigningMethod (alg : string) : SigningMethod :=
  if String.eqb alg "HS256" || String.eqb alg "HS384" || String.eqb alg "HS512"
  then SigningMethodHMAC alg
  else SigningMethodOther alg.

(** Modelled from the spec: [jwt.Token], as far as the source looks at
    it. *)
Record Token := {
  Method : SigningMethod;
  Header_alg : string;
  Claims : JWTClaims;
  Valid : bool
}.

Section Library.
Context `{codec : TokenCodec}.

(** Modelled from the spec: [token.SignedString(key)] of
    [jwt.NewWithClaims(method, claims)] (golang-jwt, not part of the
    repository).  Section 6: three dot-joined URL-safe base64 segments,
    encoded header, encoded claims payload, encoded signature; the
    signature is the keyed MAC over header + "." + payload. *)
Definition SignedString (alg : string) (claims : JWTClaims) (key : string) : Res string :=
  let h := EncodeSegment (MarshalHeader alg) in
  let p := EncodeSegment (MarshalClaims claims) in
  Ok (h +:+ "." +:+ p +:+ "." +:+ EncodeSegment (HMAC alg key (h +:+ "." +:+ p))).

(** Modelled from the spec: a token string taken apart into its three
    segments but not yet trusted. *)
Record Unverified := {
  u_header : string;
  u_payload : string;
  u_signature : string;
  u_token : Token
}.

(** Modelled from the spec: the decode stage of [jwt.ParseWithClaims].
    Section 4.1: Malformed on a wrong segment count or an undecodable
    segment. *)
Definition decode_token (tokenString : string) : Res Unverified :=
  match Split "." tokenString with
  | [h; p; sg] =>
      match DecodeSegment h ≫= UnmarshalHeader,
            DecodeSegment p ≫= UnmarshalClaims,
            DecodeSegment sg with
      | Some alg, Some claims, Some sig =>
          Ok {| u_header := h; u_payload := p; u_signature := sig;
                u_token := {| Method := GetSigningMethod alg; Header_alg := alg;
                              Claims := claims; Valid := false |} |}
      | _, _, _ => Err (Lib jwt_Malformed)
      end
  | _ => Err (Lib jwt_Malformed)
  end.

(** Modelled from the spec: the signature stage.  The key function is
    asked for the key; the MAC over header + "." + payload must equal the
    signature segment (BadSignature otherwise).  A method outside the
    HMAC family never verifies here. *)
Definition verify_signature (keyFunc : Token → Res string) (u : Unverified) : Res Token :=
  match keyFunc (u_token u) with
  | Err e => Err (Lib (jwt_Unverifiable (Error e)))
  | Ok key =>
      match Method (u_token u) with
      | SigningMethodHMAC alg =>
          if decide (u_signature u = HMAC alg key (u_header u +:+ "." +:+ u_payload u))
          then Ok (u_token u)
          else Err (Lib jwt_BadSignature)
      | SigningMethodOther _ => Err (Lib jwt_BadSignature)
      end
  end.

(** Modelled from the spec: the time-bound stage.  Section 4.1: Expired
    when now > expires-at, NotYetValid when now < not-before. *)
Definition check_time_bounds (t : Token) (clk : Clock) : Res Token * Clock :=
  let '(now, clk') := Now clk in
  if ExpiresAt (Registered (Claims t)) <? now then (Err (Lib jwt_Expired), clk')
  else if now <? NotBefore (Registered (Claims t)) then (Err (Lib jwt_NotYetValid), clk')
  else (Ok {| Method := Method t; Header_alg := Header_alg t;
              Claims := Claims t; Valid := true |}, clk').

(** Modelled from the spec: [jwt.ParseWithClaims(tokenString, claims,
    keyFunc)].  Section 4.1: decode, verify the signature, check the
    time bounds; the first failure is the result. *)
Definition ParseWithClaims (tokenString : string) (keyFunc : Token → Res string)
    (clk : Clock) : Res Token * Clock :=
  match decode_token tokenString with
  | Err e => (Err e, clk)
  | Ok u =>
      match verify_signature keyFunc u with
      | Err e => (Err e, clk)
      | Ok t => check_time_bounds t clk
      end
  end.

(** *** The source *)

(** [func (j *JWTManager) GenerateToken(userID, username, email, role string,
    expiration time.Duration) (string, error)] *)
Definition GenerateToken (j : JWTManager) (userID username email role : string)
    (expiration : Z) (clk : Clock) : Res string * Clock :=
  let '(t1, clk) := Now clk in
  let '(t2, clk) := Now clk in
  let '(t3, clk) := Now clk in
  let claims :=
    {| UserID := userID; Username := username; Email := email; Role := role;
       Registered :=
         {| ExpiresAt := NewNumericDate (t1 + expiration);
            IssuedAt := NewNumericDate t2;
            NotBefore := NewNumericDate t3;
            Issuer := issuer j;
            Subject := userID |} |} in
  match SignedString "HS256" claims (secretKey j) with
  | Err err => (Err (Wrap "failed to sign token: " err), clk)
  | Ok tokenString => (Ok tokenString, clk)
  end.

(** The key function both [ValidateToken] and the middleware pass. *)
Definition keyFunc (j : JWTManager) (token : Token) : Res string :=
  match Method token with
  | SigningMethodHMAC _ => Ok (secretKey j)
  | SigningMethodOther _ =>
      Err (New ("unexpected signing method: " +:+ Header_alg token))
  end.

(** [func (j *JWTManager) ValidateToken(tokenString string)], returning the claims or an error *)
Definition ValidateToken (j : JWTManager) (tokenString : string) (clk : Clock)
  : Res JWTClaims * Clock :=
  match ParseWithClaims tokenString (keyFunc j) clk with
  | (Err err, clk') => (Err (Wrap "failed to parse token: " err), clk')
  | (Ok token, clk') =>
      if negb (Valid token) then (Err (New "token is invalid"), clk')
      else (Ok (Claims token), clk')
  end.

(** [func (j *JWTManager) RefreshToken(tokenString string,
    newExpiration time.Duration) (string, error)] *)
Definition RefreshToken (j : JWTManager) (tokenString : string) (newExpiration : Z)
    (clk : Clock) : Res string * Clock :=
  match ValidateToken j tokenString clk with
  | (Err err, clk') => (Err (Wrap "invalid token for refresh: " err), clk')
  | (Ok claims, clk') =>
      GenerateToken j (UserID claims) (Username claims) (Email claims) (Role claims)
        newExpiration clk'
  end.

(** [func (j *JWTManager) ExtractUserID(tokenString string) (string, error)] *)
Definition ExtractUserID (j : JWTManager) (tokenString : string) (clk : Clock)
  : Res string * Clock :=
  match ValidateToken j tokenString clk with
  | (Err err, clk') => (Err err, clk')
  | (Ok claims, clk') => (Ok (UserID claims), clk')
  end.

(** [func (j *JWTManager) IsTokenExpired(tokenString string) bool];
    [t.Before(u)] is [t < u]. *)
Definition IsTokenExpired (j : JWTManager) (tokenString : string) (clk : Clock)
  : bool * Clock :=
  match ValidateToken j tokenString clk with
  | (Err _, clk') => (true, clk')
  | (Ok claims, clk') =>
      let '(now, clk'') := Now clk' in
      (ExpiresAt (Registered claims) <? now, clk'')
  end.

(** [func (j *JWTManager) GetTokenRemainingTime(tokenString string)
    (time.Duration, error)] *)
Definition GetTokenRemainingTime (j : JWTManager) (tokenString : string) (clk : Clock)
  : Res Z * Clock :=
  match ValidateToken j tokenString clk with
  | (Err err, clk') => (Err err, clk')
  | (Ok claims, clk') =>
      let '(now, clk'') := Now clk' in
      let remaining := ExpiresAt (Registered claims) - now in
      if remaining <? 0 then (Err (New "token has expired"), clk'')
      else (Ok remaining, clk'')
  end.

(** The claims a token string carries under the manager's key: decode
    and signature stages only, no clock involved. *)
Definition carried_claims (j : JWTManager) (tokenString : string) : Res JWTClaims :=
  match decode_token tokenString with
  | Err e => Err e
  | Ok u =>
      match verify_signature (keyFunc j) u with
      | Err e => Err e
      | Ok t => Ok (Claims t)
      end
  end.

(** The claims [GenerateToken] signs when the clock stands at [clk]. *)
Definition issued_claims (j : JWTManager) (userID username email role : string)
    (expiration : Z) (clk : Clock) : JWTClaims :=
  {| UserID := userID; Username := username; Email := email; Role := role;
     Registered :=
       {| ExpiresAt := NewNumericDate (reading clk (ticks clk) + expiration);
          IssuedAt := NewNumericDate (reading clk (S (ticks clk)));
          NotBefore := NewNumericDate (reading clk (S (S (ticks clk))));
          Issuer := issuer j;
          Subject := userID |} |}.

(** *** Splitting a token string *)

Lemma Split_no_sep (sep : ascii) (s : string) :
  sep ∉ list_ascii_of_string s → Split sep s = [s].
Proof.
  induction s as [|c s IH]; cbn [Split list_ascii_of_string]; [done|].
  intros Hnot. apply not_elem_of_cons in Hnot as [Hne Hnot].
  case_decide; [congruence|]. by rewrite IH.
Qed.

Lemma Split_app_sep (sep : ascii) (a rest : string) :
  sep ∉ list_ascii_of_string a →
  Split sep (a +:+ String sep rest) = a :: Split sep rest.
Proof.
  induction a as [|c a IH]; simpl.
  - intros _. by case_decide.
  - intros Hnot. apply not_elem_of_cons in Hnot as [Hne Hnot].
    case_decide; [congruence|]. by rewrite IH.
Qed.

Lemma Split_three (a b c : string) :
  "."%char ∉ list_ascii_of_string a →
  "."%char ∉ list_ascii_of_string b →
  "."%char ∉ list_ascii_of_string c →
  Split "." (a +:+ "." +:+ b +:+ "." +:+ c) = [a; b; c].
Proof.
  intros Ha Hb Hc.
  change (a +:+ "." +:+ b +:+ "." +:+ c)
    with (a +:+ String "." (b +:+ String "." c)).
  by rewrite !Split_app_sep, Split_no_sep.
Qed.

(** *** Issue, then validate *)

Lemma decode_signed (alg : string) (claims : JWTClaims) (sig : string) :
  let h := EncodeSegment (MarshalHeader alg) in
  let p := EncodeSegment (MarshalClaims claims) in
  decode_token (h +:+ "." +:+ p +:+ "." +:+ EncodeSegment sig) =
  Ok {| u_header := h; u_payload := p; u_signature := sig;
        u_token := {| Method := GetSigningMethod alg; Header_alg := alg;
                      Claims := claims; Valid := false |} |}.
Proof.
  intros h p. unfold decode_token.
  rewrite Split_three by apply EncodeSegment_no_dot.
  subst h p. rewrite !DecodeSegment_Encode; cbn [mbind option_bind].
  by rewrite UnmarshalHeader_Marshal, UnmarshalClaims_Marshal.
Qed.

Lemma carried_claims_signed (j : JWTManager) (claims : JWTClaims) (tok : string) :
  SignedString "HS256" claims (secretKey j) = Ok tok →
  carried_claims j tok = Ok claims.
Proof.
  unfold SignedString; cbv zeta. intros Hs; injection Hs as <-. unfold carried_claims.
  rewrite decode_signed. unfold verify_signature, keyFunc; cbn.
  by case_decide.
Qed.

Lemma GenerateToken_spec (j : JWTManager) (userID username email role : string)
    (expiration : Z) (clk : Clock) :
  GenerateToken j userID username email role expiration clk =
  (SignedString "HS256" (issued_claims j userID username email role expiration clk)
     (secretKey j),
   at_tick clk (S (S (S (ticks clk))))).
Proof. reflexivity. Qed.

(** Validation is: find the carried claims, then read the clock once and
    compare it with the two bounds. *)
Lemma ValidateToken_spec (j : JWTManager) (tok : string) (clk : Clock) :
  ValidateToken j tok clk =
  match carried_claims j tok with
  | Err e => (Err (Wrap "failed to parse token: " e), clk)
  | Ok c =>
      let now := reading clk (ticks clk) in
      (if ExpiresAt (Registered c) <? now
       then Err (Wrap "failed to parse token: " (Lib jwt_Expired))
       else if now <? NotBefore (Registered c)
       then Err (Wrap "failed to parse token: " (Lib jwt_NotYetValid))
       else Ok c,
       at_tick clk (S (ticks clk)))
  end.
Proof.
  unfold ValidateToken, ParseWithClaims, carried_claims.
  destruct (decode_token tok) as [u|e]; [|done].
  destruct (verify_signature (keyFunc j) u) as [t|e]; [|done].
  unfold check_time_bounds, Now, at_tick; cbn.
  destruct (ExpiresAt (Registered (Claims t)) <? reading clk (ticks clk)); [done|].
  by destruct (reading clk (ticks clk) <? NotBefore (Registered (Claims t))).
Qed.

Lemma SignedString_total (alg : string) (claims : JWTClaims) (key : string) :
  ∃ tok, SignedString alg claims key = Ok tok.
Proof. unfold SignedString. eauto. Qed.

(** C1. A token issued for (user id, username, email, role) with a
    lifetime whose resulting expires-at lies after the instant of
    validation validates, and the claims returned carry the user id,
    username, email, role, issuer and subject given at issue time. *)
Theorem validate_generated_token (j : JWTManager) (userID username email role : string)
    (expiration : Z) (clk : Clock) (n : nat) :
  monotone clk →
  (S (S (S (ticks clk))) ≤ n)%nat →
  reading clk n < NewNumericDate (reading clk (ticks clk) + expiration) →
  ∃ tok claims,
    (GenerateToken j userID username email role expiration clk).1 = Ok tok ∧
    (ValidateToken j tok (at_tick clk n)).1 = Ok claims ∧
    claims = issued_claims j userID username email role expiration clk ∧
    UserID claims = userID ∧ Username claims = username ∧
    Email claims = email ∧ Role claims = role ∧
    Issuer (Registered claims) = issuer j ∧
    Subject (Registered claims) = userID.
Proof.
  intros Hmono Hn Hexp. rewrite GenerateToken_spec; cbn [fst].
  destruct (SignedString_total "HS256"
              (issued_claims j userID username email role expiration clk) (secretKey j))
    as [tok Htok].
  exists tok, (issued_claims j userID username email role expiration clk).
  split; [done|]. split; [|done].
  rewrite ValidateToken_spec, (carried_claims_signed _ _ _ Htok).
  cbn [fst at_tick reading ticks issued_claims Registered ExpiresAt NotBefore].
  rewrite (proj2 (Z.ltb_ge _ _)) by lia.
  rewrite (proj2 (Z.ltb_ge _ _)); [done|].
  etrans; [apply NewNumericDate_le|]. apply Hmono. lia.
Qed.

(** C8 (as the code has it). When validation fails, refresh fails with
    that failure wrapped under the prefix "invalid token for refresh: ".
    When validation succeeds, refresh returns a new token that carries
    the old user id, username, email and role, with the subject set to
    the old user id and issued-at / expires-at computed from fresh clock
    readings; the old token string still validates, to the same claims,
    at every later instant before its own expires-at. *)
Theorem refresh_wraps_or_reissues (j : JWTManager) (tok : string) (newExpiration : Z)
    (clk : Clock) :
  monotone clk →
  match (ValidateToken j tok clk).1 with
  | Err e =>
      RefreshToken j tok newExpiration clk =
        (Err (Wrap "invalid token for refresh: " e), (ValidateToken j tok clk).2) ∧
      Unwrap (Wrap "invalid token for refresh: " e) = Some e
  | Ok old =>
      ∃ tok' new,
        (RefreshToken j tok newExpiration clk).1 = Ok tok' ∧
        carried_claims j tok' = Ok new ∧
        UserID new = UserID old ∧ Username new = Username old ∧
        Email new = Email old ∧ Role new = Role old ∧
        Subject (Registered new) = UserID old ∧
        Issuer (Registered new) = issuer j ∧
        ExpiresAt (Registered new) =
          NewNumericDate (reading clk (S (ticks clk)) + newExpiration) ∧
        IssuedAt (Registered new) = NewNumericDate (reading clk (S (S (ticks clk)))) ∧
        (∀ n : nat, (ticks clk ≤ n)%nat →
           reading clk n < ExpiresAt (Registered old) →
           (ValidateToken j tok (at_tick clk n)).1 = Ok old)
  end.
Proof.
  intros Hmono. unfold RefreshToken.
  destruct (ValidateToken j tok clk) as [[old|e] clk1] eqn:Hv; cbn [fst snd]; [|done].
  rewrite ValidateToken_spec in Hv.
  destruct (carried_claims j tok) as [c|e] eqn:Hc; [|done].
  cbv zeta in Hv.
  destruct (ExpiresAt (Registered c) <? reading clk (ticks clk)) eqn:He; [done|].
  destruct (reading clk (ticks clk) <? NotBefore (Registered c)) eqn:Hn; [done|].
  injection Hv as -> <-.
  rewrite GenerateToken_spec; cbn [fst].
  destruct (SignedString_total "HS256"
              (issued_claims j (UserID old) (Username old) (Email old) (Role old)
                 newExpiration (at_tick clk (S (ticks clk)))) (secretKey j))
    as [tok' Htok'].
  eexists tok', _. split; [done|]. split; [by eapply carried_claims_signed|].
  split_and!; try done.
  intros n Hle Hlt. rewrite ValidateToken_spec, Hc.
  cbn [fst at_tick reading ticks].
  rewrite (proj2 (Z.ltb_ge _ _)) by lia.
  rewrite (proj2 (Z.ltb_ge _ _)); [done|].
  apply Z.ltb_ge in Hn. etrans; [exact Hn|]. by apply Hmono.
Qed.

(** C9 (as the code has it). [IsTokenExpired] answers true exactly when
    validation fails, or validation succeeds and the expires-at is
    strictly before the clock reading taken after validation. *)
Theorem IsTokenExpired_iff (j : JWTManager) (tok : string) (clk : Clock) :
  let clk1 := (ValidateToken j tok clk).2 in
  (IsTokenExpired j tok clk).1 = true ↔
  (∃ e, (ValidateToken j tok clk).1 = Err e) ∨
  (∃ c, (ValidateToken j tok clk).1 = Ok c ∧
        ExpiresAt (Registered c) < reading clk1 (ticks clk1)).
Proof.
  unfold IsTokenExpired.
  destruct (ValidateToken j tok clk) as [[c|e] clk1]; cbn [fst snd Now].
  - rewrite Z.ltb_lt. split.
    + intros Hlt. right. by exists c.
    + by intros [[e [=]]|[c' [[= <-] Hlt]]].
  - split; [|done]. intros _. left. by exists e.
Qed.

End Library.

(** *** A reference codec

    One implementation of the [TokenCodec] interface, so that the
    properties above can be run on concrete tokens: segments in
    hexadecimal, claims as nine comma-separated fields, a keyed tag that
    concatenates its inputs, numeric dates truncated to whole seconds. *)

Definition hex_digit (n : N) : ascii :=
  match n with
  | 0 => "0" | 1 => "1" | 2 => "2" | 3 => "3" | 4 => "4" | 5 => "5" | 6 => "6" | 7 => "7"
  | 8 => "8" | 9 => "9" | 10 => "a" | 11 => "b" | 12 => "c" | 13 => "d" | 14 => "e"
  | _ => "f"
  end%N%char.

Definition hex_value (c : ascii) : option N :=
  let n := N_of_ascii c in
  if (48 <=? n)%N && (n <=? 57)%N then Some (n - 48)%N
  else if (97 <=? n)%N && (n <=? 102)%N then Some (n - 87)%N
  else None.

Fixpoint hex_encode (s : string) : string :=
  match s with
  | EmptyString => ""
  | String c rest =>
      String (hex_digit (N_of_ascii c / 16))
        (String (hex_digit (N_of_ascii c mod 16)) (hex_encode rest))
  end.

Fixpoint hex_decode (s : string) : option string :=
  match s with
  | EmptyString => Some ""
  | String a (String b rest) =>
      match hex_value a, hex_value b, hex_decode rest with
      | Some x, Some y, Some t => Some (String (ascii_of_N (16 * x + y)) t)
      | _, _, _ => None
      end
  | String _ EmptyString => None
  end.

Definition ref_MarshalClaims (c : JWTClaims) : string :=
  hex_encode (UserID c) +:+ "," +:+ hex_encode (Username c) +:+ "," +:+
  hex_encode (Email c) +:+ "," +:+ hex_encode (Role c) +:+ "," +:+
  hex_encode (Issuer (Registered c)) +:+ "," +:+
  hex_encode (Subject (Registered c)) +:+ "," +:+
  hex_encode (dec (ExpiresAt (Registered c))) +:+ "," +:+
  hex_encode (dec (IssuedAt (Registered c))) +:+ "," +:+
  hex_encode (dec (NotBefore (Registered c))).

Definition ref_UnmarshalClaims (s : string) : option JWTClaims :=
  match Split "," s with
  | [a; b; c; d; e; f; g; h; i] =>
      uid ← hex_decode a; un ← hex_decode b; em ← hex_decode c; ro ← hex_decode d;
      iss ← hex_decode e; sub ← hex_decode f;
      exp ← hex_decode g ≫= undec; iat ← hex_decode h ≫= undec;
      nbf ← hex_decode i ≫= undec;
      Some {| UserID := uid; Username := un; Email := em; Role := ro;
              Registered := {| ExpiresAt := exp; IssuedAt := iat; NotBefore := nbf;
                               Issuer := iss; Subject := sub |} |}
  | _ => None
  end.

Definition ref_HMAC (alg key msg : string) : string :=
  alg +:+ ":" +:+ key +:+ ":" +:+ msg.

Definition ref_NewNumericDate (t : Z) : Z := t / second * second.

Lemma hex_decode_encode (s : string) : hex_decode (hex_encode s) = Some s.
Proof.
  induction s as [|c s IH]; [done|].
  cbn [hex_encode hex_decode]. rewrite IH.
  by destruct c as [[] [] [] [] [] [] [] []].
Qed.

Lemma hex_encode_chars (c : ascii) (s : string) :
  c ∈ list_ascii_of_string (hex_encode s) → is_Some (hex_value c).
Proof.
  induction s as [|a s IH]; cbn [hex_encode list_ascii_of_string].
  - by intros ?%elem_of_nil.
  - intros [->|[->|Hin]%elem_of_cons]%elem_of_cons; [| |by auto];
      by destruct a as [[] [] [] [] [] [] [] []].
Qed.

Lemma hex_encode_no (c : ascii) (s : string) :
  hex_value c = None → c ∉ list_ascii_of_string (hex_encode s).
Proof. intros Hc Hin. apply hex_encode_chars in Hin as [n Hn]. congruence. Qed.

Lemma ref_Unmarshal_Marshal (c : JWTClaims) :
  ref_UnmarshalClaims (ref_MarshalClaims c) = Some c.
Proof.
  destruct c as [uid un em ro [exp iat nbf iss sub]].
  unfold ref_UnmarshalClaims, ref_MarshalClaims;
    cbn [UserID Username Email Role Registered ExpiresAt IssuedAt NotBefore Issuer Subject].
  repeat match goal with
  | |- context [Split "," (?a +:+ "," +:+ ?r)] =>
      change (a +:+ "," +:+ r) with (a +:+ String "," r);
      rewrite (Split_app_sep "," a r) by (by apply hex_encode_no)
  end.
  rewrite Split_no_sep by (by apply hex_encode_no).
  rewrite !hex_decode_encode; cbn [mbind option_bind].
  by rewrite !undec_dec.
Qed.

Lemma ref_NewNumericDate_le (t : Z) : ref_NewNumericDate t ≤ t.
Proof.
  unfold ref_NewNumericDate, second.
  pose proof (Z.mul_div_le t 1000000000). lia.
Qed.

#[export] Instance ref_codec : TokenCodec := {|
  EncodeSegment := hex_encode;
  DecodeSegment := hex_decode;
  MarshalHeader := λ alg, alg;
  UnmarshalHeader := λ s, Some s;
  MarshalClaims := ref_MarshalClaims;
  UnmarshalClaims := ref_UnmarshalClaims;
  HMAC := ref_HMAC;
  NewNumericDate := ref_NewNumericDate;
  DecodeSegment_Encode := hex_decode_encode;
  EncodeSegment_no_dot := λ s, hex_encode_no "." s eq_refl;
  UnmarshalHeader_Marshal := λ alg, eq_refl;
  UnmarshalClaims_Marshal := ref_Unmarshal_Marshal;
  NewNumericDate_le := ref_NewNumericDate_le
|}.

(** *** The properties on concrete tokens *)

Definition demo_manager : JWTManager := NewJWTManager "s3cret" "auth".

(** A clock whose n-th reading is n seconds. *)
Definition tick_clock : Clock := {| reading := λ n, Z.of_nat n * second; ticks := 0 |}.

(** The token issued to user u1 at tick 0 for ten seconds. *)
Definition demo_token : string :=
  match (GenerateToken demo_manager "u1" "ann" "ann@example.org" "admin"
           (10 * second) tick_clock).1 with
  | Ok t => t
  | Err _ => ""
  end.

Definition demo_claims : JWTClaims :=
  issued_claims demo_manager "u1" "ann" "ann@example.org" "admin" (10 * second) tick_clock.

Lemma tick_clock_monotone (n : nat) : monotone (at_tick tick_clock n).
Proof. intros i j Hij. unfold at_tick, tick_clock, second; cbn. lia. Qed.

Lemma demo_token_carries : carried_claims demo_manager demo_token = Ok demo_claims.
Proof. by vm_compute. Qed.

Lemma validate_generated_token_witness :
  ∃ tok claims,
    (GenerateToken demo_manager "u1" "ann" "ann@example.org" "admin"
       (10 * second) tick_clock).1 = Ok tok ∧
    (ValidateToken demo_manager tok (at_tick tick_clock 5)).1 = Ok claims ∧
    claims = demo_claims ∧
    UserID claims = "u1" ∧ Username claims = "ann" ∧
    Email claims = "ann@example.org" ∧ Role claims = "admin" ∧
    Issuer (Registered claims) = "auth" ∧
    Subject (Registered claims) = "u1".
Proof.
  apply (validate_generated_token demo_manager "u1" "ann" "ann@example.org" "admin"
           (10 * second) tick_clock 5).
  - intros i j Hij. cbn. unfold second. lia.
  - cbn. lia.
  - by vm_compute.
Defined.

(** Refreshing the demo token at tick 3 for twenty more seconds. *)
Lemma refresh_wraps_or_reissues_witness :
  ∃ tok' new,
    (RefreshToken demo_manager demo_token (20 * second) (at_tick tick_clock 3)).1 = Ok tok' ∧
    carried_claims demo_manager tok' = Ok new ∧
    UserID new = "u1" ∧ Username new = "ann" ∧
    Email new = "ann@example.org" ∧ Role new = "admin" ∧
    Subject (Registered new) = "u1" ∧
    Issuer (Registered new) = "auth" ∧
    ExpiresAt (Registered new) = 24 * second ∧
    IssuedAt (Registered new) = 5 * second ∧
    (∀ n : nat, (3 ≤ n)%nat →
       reading tick_clock n < 10 * second →
       (ValidateToken demo_manager demo_token (at_tick tick_clock n)).1 = Ok demo_claims).
Proof.
  refine (refresh_wraps_or_reissues demo_manager demo_token (20 * second)
            (at_tick tick_clock 3) _).
  intros i j Hij. cbn. unfold second. lia.
Defined.

(** The claim C8 makes for failing tokens does not hold: the failure
    [RefreshToken] returns is not the failure [ValidateToken] returned
    but a new error wrapping it. *)
Lemma refresh_failure_is_wrapped :
  (ValidateToken demo_manager "not-a-token" tick_clock).1 =
    Err (Wrap "failed to parse token: " (Lib jwt_Malformed)) ∧
  (RefreshToken demo_manager "not-a-token" (20 * second) tick_clock).1 =
    Err (Wrap "invalid token for refresh: "
           (Wrap "failed to parse token: " (Lib jwt_Malformed))) ∧
  Wrap "invalid token for refresh: " (Wrap "failed to parse token: " (Lib jwt_Malformed))
    ≠ Wrap "failed to parse token: " (Lib jwt_Malformed).
Proof. split_and!; [by vm_compute..|discriminate]. Qed.

(** The claim C9 makes for the boundary does not hold: at tick 9 the
    demo token validates (9 s is before its expires-at of 10 s), the
    clock reading [IsTokenExpired] then compares against is 10 s, equal
    to the expires-at, and the answer is false. *)
Lemma not_expired_at_expiry_instant :
  (ValidateToken demo_manager demo_token (at_tick tick_clock 9)).1 = Ok demo_claims ∧
  ExpiresAt (Registered demo_claims) = reading tick_clock 10 ∧
  (ValidateToken demo_manager demo_token (at_tick tick_clock 9)).2 = at_tick tick_clock 10 ∧
  (IsTokenExpired demo_manager demo_token (at_tick tick_clock 9)).1 = false.
Proof. split_and!; by vm_compute. Qed.

End JWT.

(** ** The cache accessor (package database, [RedisClient]) *)

Module Cache.

(** *** The backing store *)

(** Modelled from the spec: an entry of the external key/value store
    behind [redis.Client] (package go-redis and the server it talks to,
    not part of the repository).  Section 3: a key, serialized bytes and
    a remaining TTL.  Time does not pass in this model: a TTL is
    recorded as it was last set. *)
Record Entry := {
  value : string;
  ttl : option Z
}.

(** Modelled from the spec: the store operations the source issues
    (section 4.3: get, set, and an increment and a TTL (re)assignment
    that are operations of their own). *)
Inductive Cmd :=
  | GET (key : string)
  | SET (key data : string) (expiration : Z)
  | INCR (key : string)
  | EXPIRE (key : string) (expiration : Z).

(** Modelled from the spec: what the store answers. *)
Inductive Reply :=
  | RString (s : string)
  | RInt (n : Z)
  | RStatus.

(** Modelled from the spec: the integer a stored string denotes for
    the store's increment, if it is one in canonical decimal form. *)
Definition parse_int (s : string) : option Z :=
  match undec s with
  | Some z => if decide (dec z = s) then Some z else None
  | None => None
  end.

(** The largest [int64], the type of the count [IncrementCounter]
    returns. *)
Definition max_int64 : Z := 2 ^ 63 - 1.

(** Modelled from the spec: one command executed by the store.  A GET
    of an absent key is the nil reply the client library reports as
    [redis.Nil]; SET overwrites value and TTL; INCR creates the counter
    at 1 without a TTL or adds one keeping the TTL; EXPIRE (re)assigns
    the TTL of an existing key and removes the key when the TTL is not
    positive. *)
Definition server_exec (c : Cmd) (st : gmap string Entry) : Res Reply * gmap string Entry :=
  match c with
  | GET key =>
      match st !! key with
      | Some e => (Ok (RString (value e)), st)
      | None => (Err (Lib redis_Nil), st)
      end
  | SET key data expiration =>
      (Ok RStatus,
       <[key := {| value := data; ttl := if 0 <? expiration then Some expiration else None |}]> st)
  | INCR key =>
      match st !! key with
      | None => (Ok (RInt 1), <[key := {| value := "1"; ttl := None |}]> st)
      | Some e =>
          match parse_int (value e) with
          | Some n =>
              if n <? max_int64
              then (Ok (RInt (n + 1)), <[key := {| value := dec (n + 1); ttl := ttl e |}]> st)
              else (Err (Lib redis_NotInteger), st)
          | None => (Err (Lib redis_NotInteger), st)
          end
      end
  | EXPIRE key expiration =>
      match st !! key with
      | None => (Ok (RInt 0), st)
      | Some e =>
          if 0 <? expiration
          then (Ok (RInt 1), <[key := {| value := value e; ttl := Some expiration |}]> st)
          else (Ok (RInt 1), delete key st)
      end
  end.

(** Modelled from the spec: the store together with the connection to
    it (section 7, CacheBackendUnavailable: timeout or transport
    failure).  [link = Some n]: the connection carries n more commands
    and then fails; [link = None]: it does not fail. *)
Record Redis := {
  store : gmap string Entry;
  link : option nat
}.

(** Modelled from the spec: one command sent over the connection; a
    command that does not get through leaves the store as it is. *)
Definition roundtrip (c : Cmd) (r : Redis) : Res Reply * Redis :=
  match link r with
  | Some O => (Err (Lib redis_Unavailable), r)
  | l =>
      let '(reply, st') := server_exec c (store r) in
      (reply, {| store := st'; link := Nat.pred <$> l |})
  end.

(** [pipe.Exec(ctx)] on the commands queued with [pipe.Incr] and
    [pipe.Expire].  The source takes a plain [Pipeline()], a batch of
    independent commands (no MULTI/EXEC transaction around them): they
    reach the store one after the other, each with its own reply. *)
Fixpoint Exec (pipe : list Cmd) (r : Redis) : list (Res Reply) * Redis :=
  match pipe with
  | [] => ([], r)
  | c :: rest =>
      let '(reply, r') := roundtrip c r in
      let '(replies, r'') := Exec rest r' in
      (reply :: replies, r'')
  end.

(** The error [pipe.Exec] returns: that of the first command that
    failed. *)
Fixpoint first_error (replies : list (Res Reply)) : option error :=
  match replies with
  | [] => None
  | Err e :: _ => Some e
  | Ok _ :: rest => first_error rest
  end.

(** *** The client wrapper *)

(** The levels at which the source logs. *)
Inductive Level := DebugLevel | WarnLevel | ErrorLevel.

(** [type RedisClient struct]: the connection and what has been logged. *)
Record RedisClient := {
  Client : Redis;
  logger : list (Level * string)
}.

Definition with_Client (r : RedisClient) (c : Redis) : RedisClient :=
  {| Client := c; logger := logger r |}.

Definition log (lvl : Level) (msg : string) (r : RedisClient) : RedisClient :=
  {| Client := Client r; logger := logger r ++ [(lvl, msg)] |}.

(** [func (r *RedisClient) Get(key string) (string, error)] *)
Definition Get (key : string) (r : RedisClient) : (string * option error) * RedisClient :=
  match roundtrip (GET key) (Client r) with
  | (Ok (RString v), c') => ((v, None), with_Client r c')
  | (Ok _, c') => (("", None), with_Client r c')
  | (Err err, c') =>
      if decide (err = Lib redis_Nil)
      then (("", Some (New ("key not found: " +:+ key))), with_Client r c')
      else (("", Some (Wrap "failed to get value: " err)),
            log ErrorLevel "Failed to get value from Redis" (with_Client r c'))
  end.

(** [func (r *RedisClient) IncrementCounter(key string, expiration time.Duration)
    (int64, error)] *)
Definition IncrementCounter (key : string) (expiration : Z) (r : RedisClient)
  : (Z * option error) * RedisClient :=
  let pipe := [INCR key; EXPIRE key expiration] in
  let '(replies, c') := Exec pipe (Client r) in
  match first_error replies with
  | Some err =>
      ((0, Some (Wrap "failed to increment counter: " err)),
       log ErrorLevel "Failed to increment counter" (with_Client r c'))
  | None =>
      let incrCmd_Val := match replies with Ok (RInt n) :: _ => n | _ => 0 end in
      ((incrCmd_Val, None), with_Client r c')
  end.

(** [n] successive calls of [IncrementCounter], with their answers. *)
Fixpoint IncrementCounter_times (n : nat) (key : string) (expiration : Z) (r : RedisClient)
  : list (Z * option error) * RedisClient :=
  match n with
  | O => ([], r)
  | S n' =>
      let '(a, r') := IncrementCounter key expiration r in
      let '(rest, r'') := IncrementCounter_times n' key expiration r' in
      (a :: rest, r'')
  end.

(** An empty store behind a connection with the given budget. *)
Definition fresh (l : option nat) : RedisClient :=
  {| Client := {| store := ∅; link := l |}; logger := [] |}.

Section Values.
(** A Go value of dynamic type other than [string], and what
    [encoding/json] does with it. *)
Variable Obj : Type.

(** An [interface{}] as [SetWithExpiration] tells it apart. *)
Inductive GoValue :=
  | VString (s : string)
  | VOther (o : Obj).

Variable Marshal : Obj → Res string.
Variable Unmarshal : string → Res GoValue.

(** [func (r *RedisClient) SetWithExpiration(key string, value interface{},
    expiration time.Duration) error] *)
Definition SetWithExpiration (key : string) (value : GoValue) (expiration : Z)
    (r : RedisClient) : option error * RedisClient :=
  let marshalled :=
    match value with
    | VString v => Ok v
    | VOther o => Marshal o
    end in
  match marshalled with
  | Err err =>
      (Some (Wrap "failed to marshal value: " err),
       log ErrorLevel "Failed to marshal value to JSON" r)
  | Ok data =>
      match roundtrip (SET key data expiration) (Client r) with
      | (Err err, c') =>
          (Some (Wrap "failed to set value: " err),
           log ErrorLevel "Failed to set value in Redis" (with_Client r c'))
      | (Ok _, c') => (None, with_Client r c')
      end
  end.

(** [func (r *RedisClient) GetAndUnmarshal(key string, dest interface{}) error];
    the value written through [dest] is returned on success. *)
Definition GetAndUnmarshal (key : string) (r : RedisClient) : Res GoValue * RedisClient :=
  match Get key r with
  | ((_, Some err), r') => (Err err, r')
  | ((value, None), r') =>
      match Unmarshal value with
      | Err err =>
          (Err (Wrap "failed to unmarshal JSON: " err),
           log ErrorLevel "Failed to unmarshal JSON" r')
      | Ok dest => (Ok dest, r')
      end
  end.

(** The caller's side of [CacheWithCallback]: its own state, which the
    callback may read and change, and a count of callback invocations. *)
Variable App : Type.

Record World := {
  redis : RedisClient;
  app : App;
  calls : nat
}.

(** [func (r *RedisClient) CacheWithCallback(key string, expiration time.Duration,
    callback func() (interface{}, error)) (interface{}, error)] *)
Definition CacheWithCallback (key : string) (expiration : Z)
    (callback : App → Res GoValue * App) (w : World) : Res GoValue * World :=
  match GetAndUnmarshal key (redis w) with
  | (Ok cachedData, r1) =>
      (Ok cachedData, {| redis := log DebugLevel "Cache hit" r1; app := app w; calls := calls w |})
  | (Err _, r1) =>
      let r2 := log DebugLevel "Cache miss, calling callback" r1 in
      let '(result, app') := callback (app w) in
      match result with
      | Err err => (Err err, {| redis := r2; app := app'; calls := S (calls w) |})
      | Ok data =>
          let '(err, r3) := SetWithExpiration key data expiration r2 in
          let r4 :=
            match err with
            | Some _ => log WarnLevel "Failed to cache data, but returning original data" r3
            | None => r3
            end in
          (Ok data, {| redis := r4; app := app'; calls := S (calls w) |})
      end
  end.

(** The key holds nothing that deserializes. *)
Definition undecodable (key : string) (r : RedisClient) : Prop :=
  ∀ ent, store (Client r) !! key = Some ent → ∃ e, Unmarshal (value ent) = Err e.

(** The callback only ever answers with an error or with a raw string
    that is not valid JSON. *)
Definition answers_raw (callback : App → Res GoValue * App) : Prop :=
  ∀ a, match (callback a).1 with
       | Ok (VString s) => ∃ e, Unmarshal s = Err e
       | Ok (VOther _) => False
       | Err _ => True
       end.

(** The world after [n] successive calls of [CacheWithCallback]. *)
Fixpoint CacheWithCallback_times (n : nat) (key : string) (expiration : Z)
    (callback : App → Res GoValue * App) (w : World) : World :=
  match n with
  | O => w
  | S n' =>
      CacheWithCallback_times n' key expiration callback
        (CacheWithCallback key expiration callback w).2
  end.

(** *** Lookups *)

(** Every outcome of [Get]: a failed connection is an error that wraps
    the cause and is logged; an absent key is a different error, built
    from the key alone and not logged; a present key is its value. *)
Lemma Get_outcomes (key : string) (r : RedisClient) :
  Get key r =
  match link (Client r), store (Client r) !! key with
  | Some O, _ =>
      (("", Some (Wrap "failed to get value: " (Lib redis_Unavailable))),
       log ErrorLevel "Failed to get value from Redis" r)
  | l, None =>
      (("", Some (New ("key not found: " +:+ key))),
       with_Client r {| store := store (Client r); link := Nat.pred <$> l |})
  | l, Some e =>
      ((value e, None),
       with_Client r {| store := store (Client r); link := Nat.pred <$> l |})
  end.
Proof.
  unfold Get, roundtrip. destruct r as [[st l] lg]; cbn.
  destruct l as [[|n]|]; cbn; [done|..]; by destruct (st !! key).
Qed.

Lemma Get_store (key : string) (r : RedisClient) :
  store (Client (Get key r).2) = store (Client r).
Proof.
  rewrite Get_outcomes. destruct r as [[st l] lg]; cbn.
  destruct l as [[|n]|]; cbn; [done|..]; by destruct (st !! key).
Qed.

Lemma GetAndUnmarshal_store (key : string) (r : RedisClient) :
  store (Client (GetAndUnmarshal key r).2) = store (Client r).
Proof.
  unfold GetAndUnmarshal. pose proof (Get_store key r) as Hs.
  destruct (Get key r) as [[v [err|]] r']; cbn in *; [done|].
  by destruct (Unmarshal v).
Qed.

(** A key holding a string that does not deserialize is a failed lookup,
    whatever the state of the connection. *)
Lemma GetAndUnmarshal_undecodable (key raw : string) (r : RedisClient) (e0 : error) :
  Unmarshal raw = Err e0 →
  value <$> store (Client r) !! key = Some raw →
  ∃ e, (GetAndUnmarshal key r).1 = Err e.
Proof.
  intros Hraw Hkey. unfold GetAndUnmarshal. rewrite Get_outcomes.
  destruct r as [[st l] lg]; cbn in *.
  destruct (st !! key) as [ent|]; [|done]. injection Hkey as Hv.
  destruct l as [[|n]|]; cbn; rewrite ?Hv, ?Hraw; eauto.
Qed.

(** After a lookup that failed, [CacheWithCallback] runs the callback
    once on the caller's state and answers what the callback answered. *)
Lemma CacheWithCallback_miss (key : string) (expiration : Z)
    (callback : App → Res GoValue * App) (w : World) (e : error) :
  (GetAndUnmarshal key (redis w)).1 = Err e →
  (CacheWithCallback key expiration callback w).1 = (callback (app w)).1 ∧
  calls (CacheWithCallback key expiration callback w).2 = S (calls w) ∧
  app (CacheWithCallback key expiration callback w).2 = (callback (app w)).2.
Proof.
  unfold CacheWithCallback. intros Hmiss.
  destruct (GetAndUnmarshal key (redis w)) as [[v|e'] r1]; [done|].
  destruct (callback (app w)) as [[data|err] app']; cbn [fst snd]; [|done].
  by destruct (SetWithExpiration key data expiration _) as [[?|] r3].
Qed.

(** C6. On a miss [CacheWithCallback] invokes the callback exactly once;
    when the callback fails, its failure is returned as it is and the
    store is left as it was; when the callback succeeds, its value is
    returned, also when writing it to the cache fails (which is logged
    as a warning). *)
Theorem CacheWithCallback_on_miss (key : string) (expiration : Z)
    (callback : App → Res GoValue * App) (w : World) (e : error) :
  (GetAndUnmarshal key (redis w)).1 = Err e →
  let out := CacheWithCallback key expiration callback w in
  let r2 := log DebugLevel "Cache miss, calling callback" (GetAndUnmarshal key (redis w)).2 in
  calls out.2 = S (calls w) ∧
  app out.2 = (callback (app w)).2 ∧
  match (callback (app w)).1 with
  | Err err =>
      out.1 = Err err ∧
      store (Client (redis out.2)) = store (Client (redis w))
  | Ok data =>
      out.1 = Ok data ∧
      (∀ err, (SetWithExpiration key data expiration r2).1 = Some err →
         (WarnLevel, "Failed to cache data, but returning original data")
           ∈ logger (redis out.2))
  end.
Proof.
  intros Hmiss out r2.
  destruct (CacheWithCallback_miss key expiration callback w e Hmiss) as (Hres & Hcalls & Happ).
  split; [done|]. split; [done|].
  subst out r2. unfold CacheWithCallback in *.
  pose proof (GetAndUnmarshal_store key (redis w)) as Hst.
  destruct (GetAndUnmarshal key (redis w)) as [[v|e'] r1]; [done|].
  destruct (callback (app w)) as [[data|err] app']; cbn [fst snd] in *.
  - split; [done|]. intros err Hset.
    destruct (SetWithExpiration key data expiration _) as [[err'|] r3];
      cbn [fst snd redis] in *; [|done].
    unfold log; cbn [logger]. apply elem_of_app. right. in_list.
  - done.
Qed.

Lemma undecodable_miss (key : string) (r : RedisClient) :
  undecodable key r → ∃ e, (GetAndUnmarshal key r).1 = Err e.
Proof.
  intros Hun. unfold GetAndUnmarshal. rewrite Get_outcomes.
  destruct r as [[st l] lg]; unfold undecodable in Hun; cbn in *.
  destruct (st !! key) as [ent|] eqn:Hk.
  - destruct (Hun ent eq_refl) as [e He].
    destruct l as [[|n]|]; cbn; rewrite ?He; eauto.
  - destruct l as [[|n]|]; cbn; eauto.
Qed.

Lemma SetWithExpiration_raw_undecodable (key s : string) (expiration : Z)
    (r : RedisClient) (e : error) :
  Unmarshal s = Err e →
  undecodable key r →
  undecodable key (SetWithExpiration key (VString s) expiration r).2.
Proof.
  intros Hs Hun. unfold SetWithExpiration, roundtrip, undecodable in *.
  destruct r as [[st l] lg]; cbn in *.
  destruct l as [[|n]|]; cbn; [done|..];
    intros ent; rewrite lookup_insert_eq; intros [= <-]; cbn; eauto.
Qed.

Lemma CacheWithCallback_keeps_undecodable (key : string) (expiration : Z)
    (callback : App → Res GoValue * App) (w : World) :
  answers_raw callback →
  undecodable key (redis w) →
  undecodable key (redis (CacheWithCallback key expiration callback w).2).
Proof.
  intros Hraw Hun. unfold CacheWithCallback.
  destruct (undecodable_miss key (redis w) Hun) as [e He].
  pose proof (GetAndUnmarshal_store key (redis w)) as Hst.
  destruct (GetAndUnmarshal key (redis w)) as [[v|e'] r1]; [done|]. cbn [snd] in Hst.
  assert (Hun1 : undecodable key (log DebugLevel "Cache miss, calling callback" r1)).
  { unfold undecodable, log; cbn [Client]. by rewrite Hst. }
  specialize (Hraw (app w)).
  destruct (callback (app w)) as [[[s|o]|err] app']; cbn [fst snd redis] in *; [|done..].
  destruct Hraw as [e0 He0].
  pose proof (SetWithExpiration_raw_undecodable key s expiration _ e0 He0 Hun1) as Hun3.
  by destruct (SetWithExpiration key (VString s) expiration _) as [[?|] r3].
Qed.

Lemma CacheWithCallback_times_calls (n : nat) (key : string) (expiration : Z)
    (callback : App → Res GoValue * App) (w : World) :
  answers_raw callback →
  undecodable key (redis w) →
  calls (CacheWithCallback_times n key expiration callback w) = (calls w + n)%nat.
Proof.
  intros Hraw. revert w. induction n as [|n IH]; intros w Hun; cbn [CacheWithCallback_times].
  - lia.
  - rewrite IH by by apply CacheWithCallback_keeps_undecodable.
    destruct (undecodable_miss key (redis w) Hun) as [e He].
    destruct (CacheWithCallback_miss key expiration callback w e He) as (_ & -> & _). lia.
Qed.

(** C10. A raw string that is not valid JSON, once stored under a key,
    is what the key holds.  In every state in which the key holds such a
    string, or in which the lookup or the deserialization fails for any
    other reason (a dead connection included), [CacheWithCallback]
    treats the lookup as a miss: it invokes the callback and answers
    what the callback answers, never the stored string.  And as long as
    what is written back is again such a string, every one of any number
    of successive calls invokes the callback. *)
Theorem undecodable_entry_is_a_miss (key raw : string) (ttl0 : Z) (r : RedisClient)
    (e0 : error) :
  Unmarshal raw = Err e0 →
  (SetWithExpiration key (VString raw) ttl0 r).1 = None →
  value <$> store (Client (SetWithExpiration key (VString raw) ttl0 r).2) !! key = Some raw ∧
  (∀ (w : World) (expiration : Z) (callback : App → Res GoValue * App),
     (value <$> store (Client (redis w)) !! key = Some raw ∨
      ∃ e, (GetAndUnmarshal key (redis w)).1 = Err e) →
     let out := CacheWithCallback key expiration callback w in
     out.1 = (callback (app w)).1 ∧
     calls out.2 = S (calls w) ∧
     app out.2 = (callback (app w)).2) ∧
  (∀ (w : World) (expiration : Z) (callback : App → Res GoValue * App) (n : nat),
     value <$> store (Client (redis w)) !! key = Some raw →
     answers_raw callback →
     calls (CacheWithCallback_times n key expiration callback w) = (calls w + n)%nat).
Proof.
  intros Hraw Hset. split_and!.
  - unfold SetWithExpiration, roundtrip in *. destruct r as [[st l] lg]; cbn in *.
    destruct l as [[|n]|]; cbn in *; [done|..]; by rewrite lookup_insert_eq.
  - intros w expiration callback Hw out.
    assert (∃ e, (GetAndUnmarshal key (redis w)).1 = Err e) as [e He].
    { destruct Hw as [Hkey|He]; [|done]. by eapply GetAndUnmarshal_undecodable. }
    by eapply CacheWithCallback_miss.
  - intros w expiration callback n Hkey Hcb.
    apply CacheWithCallback_times_calls; [done|].
    intros ent Hent. rewrite Hent in Hkey. injection Hkey as ->. eauto.
Qed.

End Values.

Arguments VString {Obj} s.
Arguments VOther {Obj} o.
Arguments redis {App} w.
Arguments app {App} w.
Arguments calls {App} w.

(** *** A concrete instance: integers as the only JSON documents *)

Definition int_Marshal (z : Z) : Res string := Ok (dec z).

Definition int_Unmarshal (s : string) : Res (GoValue Z) :=
  match parse_int s with
  | Some z => Ok (VOther z)
  | None => Err (Lib json_Invalid)
  end.

(** A callback that answers 42 and counts itself in the caller's state. *)
Definition answer_42 (n : nat) : Res (GoValue Z) * nat := (Ok (VOther 42), S n).

(** A caller whose connection carries the lookup but not the write. *)
Definition one_command_world : World nat :=
  {| redis := fresh (Some 1%nat); app := 0%nat; calls := 0 |}.

Lemma CacheWithCallback_on_miss_witness :
  let out := CacheWithCallback Z int_Marshal int_Unmarshal nat "k" second answer_42
               one_command_world in
  calls out.2 = 1%nat ∧
  app out.2 = 1%nat ∧
  out.1 = Ok (VOther 42) ∧
  (∀ err,
     (SetWithExpiration Z int_Marshal "k" (VOther 42) second
        (log DebugLevel "Cache miss, calling callback"
           (GetAndUnmarshal Z int_Unmarshal "k" (fresh (Some 1%nat))).2)).1 = Some err →
     (WarnLevel, "Failed to cache data, but returning original data")
       ∈ logger (redis out.2)).
Proof.
  exact (CacheWithCallback_on_miss Z int_Marshal int_Unmarshal nat "k" second answer_42
           one_command_world (New "key not found: k") eq_refl).
Defined.

(** In that world the write does fail, and the value is returned all
    the same. *)
Lemma CacheWithCallback_write_failure :
  (SetWithExpiration Z int_Marshal "k" (VOther 42) second
     (log DebugLevel "Cache miss, calling callback"
        (GetAndUnmarshal Z int_Unmarshal "k" (fresh (Some 1%nat))).2)).1 =
    Some (Wrap "failed to set value: " (Lib redis_Unavailable)) ∧
  (CacheWithCallback Z int_Marshal int_Unmarshal nat "k" second answer_42
     one_command_world).1 = Ok (VOther 42).
Proof. split; by vm_compute. Qed.

(** A callback that keeps answering with the same raw text. *)
Definition answer_hello (n : nat) : Res (GoValue Z) * nat := (Ok (VString "hello"), S n).

Lemma undecodable_entry_is_a_miss_witness :
  value <$> store (Client (SetWithExpiration Z int_Marshal "k" (VString "hello") second
                             (fresh None)).2) !! "k" = Some "hello" ∧
  (∀ (w : World nat) (expiration : Z) (callback : nat → Res (GoValue Z) * nat),
     (value <$> store (Client (redis w)) !! "k" = Some "hello" ∨
      ∃ e, (GetAndUnmarshal Z int_Unmarshal "k" (redis w)).1 = Err e) →
     let out := CacheWithCallback Z int_Marshal int_Unmarshal nat "k" expiration callback w in
     out.1 = (callback (app w)).1 ∧
     calls out.2 = S (calls w) ∧
     app out.2 = (callback (app w)).2) ∧
  (∀ (w : World nat) (expiration : Z) (callback : nat → Res (GoValue Z) * nat) (n : nat),
     value <$> store (Client (redis w)) !! "k" = Some "hello" →
     answers_raw Z int_Unmarshal nat callback →
     calls (CacheWithCallback_times Z int_Marshal int_Unmarshal nat n "k" expiration callback w)
       = (calls w + n)%nat).
Proof.
  exact (undecodable_entry_is_a_miss Z int_Marshal int_Unmarshal nat "k" "hello" second
           (fresh None) (Lib json_Invalid) eq_refl eq_refl).
Defined.

(** Three calls after storing the raw text: three callback invocations. *)
Lemma raw_text_three_calls :
  let r := (SetWithExpiration Z int_Marshal "k" (VString "hello") second (fresh None)).2 in
  let w := {| redis := r; app := 0%nat; calls := 0 |} in
  calls (CacheWithCallback_times Z int_Marshal int_Unmarshal nat 3 "k" second answer_hello w)
    = 3%nat ∧
  app (CacheWithCallback_times Z int_Marshal int_Unmarshal nat 3 "k" second answer_hello w)
    = 3%nat.
Proof. split; by vm_compute. Qed.

(** A callback that answers a value with a JSON form replaces the
    entry: the next lookup finds the callback's value, not the raw text,
    and the callback is not run again. *)
Lemma raw_text_replaced_by_callback_value :
  let r := (SetWithExpiration Z int_Marshal "k" (VString "hello") second (fresh None)).2 in
  let w := {| redis := r; app := 0%nat; calls := 0 |} in
  let w1 := (CacheWithCallback Z int_Marshal int_Unmarshal nat "k" second answer_42 w).2 in
  (CacheWithCallback Z int_Marshal int_Unmarshal nat "k" second answer_42 w).1
    = Ok (VOther 42) ∧
  calls w1 = 1%nat ∧
  (CacheWithCallback Z int_Marshal int_Unmarshal nat "k" second answer_42 w1).1
    = Ok (VOther 42) ∧
  calls (CacheWithCallback Z int_Marshal int_Unmarshal nat "k" second answer_42 w1).2
    = 1%nat.
Proof. split_and!; by vm_compute. Qed.

(** *** Counters *)

(** C3 (as the code has it). For every key absent from the store (and a
    working connection) [Get] returns the empty string together with a
    non-nil error, "key not found: " followed by the key, and logs
    nothing; that error wraps nothing and differs, also in its text,
    from the error of a failed lookup, which wraps its cause under
    "failed to get value: ". *)
Theorem Get_absent_key_error (key : string) (r : RedisClient) :
  store (Client r) !! key = None →
  link (Client r) ≠ Some O →
  (Get key r).1 = ("", Some (New ("key not found: " +:+ key))) ∧
  logger (Get key r).2 = logger r ∧
  Unwrap (New ("key not found: " +:+ key)) = None ∧
  ∀ cause : error,
    New ("key not found: " +:+ key) ≠ Wrap "failed to get value: " cause ∧
    Error (New ("key not found: " +:+ key)) ≠ Error (Wrap "failed to get value: " cause).
Proof.
  intros Habsent Hlink. rewrite Get_outcomes, Habsent.
  destruct (link (Client r)) as [[|n]|]; [done|..]; by split_and!.
Qed.

Lemma Get_absent_key_error_witness :
  (Get "k" (fresh None)).1 = ("", Some (New ("key not found: " +:+ "k"))) ∧
  logger (Get "k" (fresh None)).2 = logger (fresh None) ∧
  Unwrap (New ("key not found: " +:+ "k")) = None ∧
  ∀ cause : error,
    New ("key not found: " +:+ "k") ≠ Wrap "failed to get value: " cause ∧
    Error (New ("key not found: " +:+ "k")) ≠ Error (Wrap "failed to get value: " cause).
Proof.
  apply (Get_absent_key_error "k" (fresh None)).
  - reflexivity.
  - discriminate.
Defined.

(** The claim C3 makes does not hold: the absent key comes back through
    the error result, as a non-nil error. *)
Lemma Get_reports_absent_key_as_error :
  (Get "k" (fresh None)).1 = ("", Some (New "key not found: k")) ∧
  is_Some (Get "k" (fresh None)).1.2.
Proof. split; [by vm_compute|]. by eexists. Qed.







(** C7 at the failing input: a fresh key, a connection that carries one
    more command.  The increment is applied, the expiry is not, the call
    reports an error, and the counter is left at 1 without a TTL. *)
Theorem IncrementCounter_interrupted :
  (IncrementCounter "c" (10 * second) (fresh (Some 1%nat))).1 =
    (0, Some (Wrap "failed to increment counter: " (Lib redis_Unavailable))) ∧
  store (Client (IncrementCounter "c" (10 * second) (fresh (Some 1%nat))).2) !! "c" =
    Some {| value := "1"; ttl := None |}.
Proof. split; by vm_compute. Qed.

(** On a working connection five calls on a fresh key answer 1 to 5 and
    leave the counter at 5 with the TTL set. *)
Lemma IncrementCounter_five_times :
  (IncrementCounter_times 5 "c" (10 * second) (fresh None)).1 =
    [(1, None); (2, None); (3, None); (4, None); (5, None)] ∧
  store (Client (IncrementCounter_times 5 "c" (10 * second) (fresh None)).2) !! "c" =
    Some {| value := "5"; ttl := Some (10 * second) |}.
Proof. split; by vm_compute. Qed.

End Cache.

(** ** More of the token service ([jwt.go]) *)

Module TokenLife.
Import JWT.

Section Properties.
Context `{codec : TokenCodec}.

(** The text [GenerateToken] signs over: encoded header, a dot, encoded
    claims. *)
Definition signing_input (claims : JWTClaims) : string :=
  EncodeSegment (MarshalHeader "HS256") +:+ "." +:+ EncodeSegment (MarshalClaims claims).

(** A token string put together by hand from a header naming [alg], a
    claim set and a signature of the forger's choice. *)
Definition forged (alg : string) (claims : JWTClaims) (sig : string) : string :=
  EncodeSegment (MarshalHeader alg) +:+ "." +:+ EncodeSegment (MarshalClaims claims)
  +:+ "." +:+ EncodeSegment sig.

Lemma GenerateToken_forged (j : JWTManager) (userID username email role : string)
    (expiration : Z) (clk : Clock) :
  (GenerateToken j userID username email role expiration clk).1 =
  Ok (forged "HS256" (issued_claims j userID username email role expiration clk)
        (HMAC "HS256" (secretKey j)
           (signing_input (issued_claims j userID username email role expiration clk)))).
Proof. by rewrite GenerateToken_spec. Qed.

(** A freshly issued token validated later, before its expires-at. *)
Lemma ValidateToken_issued (j : JWTManager) (userID username email role : string)
    (expiration : Z) (clk : Clock) (n : nat) (tok : string) :
  monotone clk →
  (S (S (S (ticks clk))) ≤ n)%nat →
  reading clk n < NewNumericDate (reading clk (ticks clk) + expiration) →
  (GenerateToken j userID username email role expiration clk).1 = Ok tok →
  ValidateToken j tok (at_tick clk n) =
  (Ok (issued_claims j userID username email role expiration clk), at_tick clk (S n)).
Proof.
  intros Hmono Hn Hexp Htok. rewrite GenerateToken_spec in Htok; cbn [fst] in Htok.
  rewrite ValidateToken_spec, (carried_claims_signed _ _ _ Htok).
  cbn [at_tick reading ticks issued_claims Registered ExpiresAt NotBefore].
  rewrite (proj2 (Z.ltb_ge _ _)) by lia.
  rewrite (proj2 (Z.ltb_ge _ _)); [done|].
  etrans; [apply NewNumericDate_le|]. apply Hmono. lia.
Qed.

(** [ExtractUserID] gives back the user id a token was issued for. *)
Lemma ExtractUserID_of_generated (j : JWTManager) (userID username email role : string)
    (expiration : Z) (clk : Clock) (n : nat) :
  monotone clk →
  (S (S (S (ticks clk))) ≤ n)%nat →
  reading clk n < NewNumericDate (reading clk (ticks clk) + expiration) →
  ∃ tok,
    (GenerateToken j userID username email role expiration clk).1 = Ok tok ∧
    (ExtractUserID j tok (at_tick clk n)).1 = Ok userID.
Proof.
  intros Hmono Hn Hexp. eexists. split; [apply GenerateToken_forged|].
  unfold ExtractUserID.
  by erewrite ValidateToken_issued by (done || apply GenerateToken_forged).
Qed.

(** X1. The remaining time reported for a freshly issued token is never
    negative and never more than the lifetime it was issued with. *)
Theorem remaining_time_within_lifetime (j : JWTManager)
    (userID username email role : string) (expiration : Z) (clk : Clock) (n : nat)
    (tok : string) (remaining : Z) :
  monotone clk →
  (S (S (S (ticks clk))) ≤ n)%nat →
  (GenerateToken j userID username email role expiration clk).1 = Ok tok →
  (GetTokenRemainingTime j tok (at_tick clk n)).1 = Ok remaining →
  0 ≤ remaining ≤ expiration.
Proof.
  intros Hmono Hn Htok. rewrite GenerateToken_spec in Htok; cbn [fst] in Htok.
  unfold GetTokenRemainingTime.
  rewrite ValidateToken_spec, (carried_claims_signed _ _ _ Htok).
  cbn [at_tick reading ticks issued_claims Registered ExpiresAt NotBefore fst snd].
  destruct (_ <? reading clk n); [done|].
  destruct (reading clk n <? _); [done|].
  cbn [Now reading ticks fst snd].
  destruct (_ <? 0) eqn:Hneg; [done|]. intros [= <-].
  apply Z.ltb_ge in Hneg. split; [done|].
  pose proof (NewNumericDate_le (reading clk (ticks clk) + expiration)).
  pose proof (Hmono (ticks clk) (S n) ltac:(lia)). lia.
Qed.

(** X2. [IsTokenExpired] and [GetTokenRemainingTime] draw the same line:
    from the same state, the first answers true exactly when the second
    fails. *)
Theorem expired_iff_no_remaining_time (j : JWTManager) (tok : string) (clk : Clock) :
  (IsTokenExpired j tok clk).1 = true ↔
  ∃ e, (GetTokenRemainingTime j tok clk).1 = Err e.
Proof.
  unfold IsTokenExpired, GetTokenRemainingTime.
  destruct (ValidateToken j tok clk) as [[c|e] clk1]; cbn [fst snd Now].
  - destruct (Z.ltb_spec (ExpiresAt (Registered c)) (reading clk1 (ticks clk1)));
      destruct (Z.ltb_spec (ExpiresAt (Registered c) - reading clk1 (ticks clk1)) 0);
      cbn [fst]; try lia.
    + split; [eauto|done].
    + split; [done|]. by intros [e [=]].
  - split; [eauto|done].
Qed.

(** X3. A token issued with a negative lifetime is rejected as expired
    at every later instant, and reported as expired. *)
Theorem negative_lifetime_is_expired (j : JWTManager)
    (userID username email role : string) (expiration : Z) (clk : Clock) (n : nat)
    (tok : string) :
  monotone clk →
  expiration < 0 →
  (ticks clk ≤ n)%nat →
  (GenerateToken j userID username email role expiration clk).1 = Ok tok →
  (ValidateToken j tok (at_tick clk n)).1 =
    Err (Wrap "failed to parse token: " (Lib jwt_Expired)) ∧
  (IsTokenExpired j tok (at_tick clk n)).1 = true.
Proof.
  intros Hmono Hneg Hn Htok. rewrite GenerateToken_spec in Htok; cbn [fst] in Htok.
  assert (Hv : (ValidateToken j tok (at_tick clk n)).1 =
               Err (Wrap "failed to parse token: " (Lib jwt_Expired))).
  { rewrite ValidateToken_spec, (carried_claims_signed _ _ _ Htok).
    cbn [at_tick reading ticks issued_claims Registered ExpiresAt fst].
    rewrite (proj2 (Z.ltb_lt _ _)); [done|].
    pose proof (NewNumericDate_le (reading clk (ticks clk) + expiration)).
    pose proof (Hmono (ticks clk) n Hn). lia. }
  split; [done|]. unfold IsTokenExpired.
  by destruct (ValidateToken j tok (at_tick clk n)) as [[c|e] clk1]; cbn [fst] in *.
Qed.

(** X4. A token is useless under another secret: when the other key
    gives a different MAC over the token's signing input, validation
    fails and no user id is read from the token, whatever the time. *)
Theorem other_secret_is_rejected (j other : JWTManager)
    (userID username email role : string) (expiration : Z) (clk clk' : Clock)
    (tok : string) :
  HMAC "HS256" (secretKey other)
    (signing_input (issued_claims j userID username email role expiration clk)) ≠
  HMAC "HS256" (secretKey j)
    (signing_input (issued_claims j userID username email role expiration clk)) →
  (GenerateToken j userID username email role expiration clk).1 = Ok tok →
  (∃ e, (ValidateToken other tok clk').1 = Err e) ∧
  (∃ e, (ExtractUserID other tok clk').1 = Err e) ∧
  (IsTokenExpired other tok clk').1 = true.
Proof.
  intros Hmac Htok. rewrite GenerateToken_forged in Htok. injection Htok as <-.
  assert (Hv : ValidateToken other
                 (forged "HS256" (issued_claims j userID username email role expiration clk)
                    (HMAC "HS256" (secretKey j)
                       (signing_input
                          (issued_claims j userID username email role expiration clk))))
                 clk' =
               (Err (Wrap "failed to parse token: " (Lib jwt_BadSignature)), clk')).
  { rewrite ValidateToken_spec. unfold carried_claims, forged.
    rewrite decode_signed. unfold verify_signature, keyFunc; cbn.
    case_decide as Heq; [|done]. exfalso. apply Hmac. by rewrite Heq. }
  unfold ExtractUserID, IsTokenExpired. rewrite Hv. cbn. eauto.
Qed.


(** X6. Refreshing keeps the identity: the user id read from the
    refreshed token is the one read from the old token. *)
Theorem refresh_keeps_user_id (j : JWTManager) (tok : string) (newExpiration : Z)
    (clk : Clock) (uid : string) (n : nat) :
  monotone clk →
  (ExtractUserID j tok clk).1 = Ok uid →
  (S (S (S (S (ticks clk)))) ≤ n)%nat →
  reading clk n < NewNumericDate (reading clk (S (ticks clk)) + newExpiration) →
  ∃ tok',
    (RefreshToken j tok newExpiration clk).1 = Ok tok' ∧
    (ExtractUserID j tok' (at_tick clk n)).1 = Ok uid.
Proof.
  intros Hmono Hex Hn Hexp. unfold ExtractUserID in Hex. unfold RefreshToken.
  rewrite ValidateToken_spec in *.
  destruct (carried_claims j tok) as [old|e]; [|done]. cbv zeta in *.
  destruct (_ <? reading clk (ticks clk)); [done|].
  destruct (reading clk (ticks clk) <? _); [done|].
  cbn [fst snd] in *. injection Hex as <-.
  eexists. split; [apply GenerateToken_forged|].
  unfold ExtractUserID.
  erewrite (ValidateToken_issued j _ _ _ _ _ (at_tick clk (S (ticks clk))) n);
    [done|done|cbn; lia|done|apply GenerateToken_forged].
Qed.

End Properties.

(** *** On the concrete tokens of [JWT] *)

Lemma ExtractUserID_of_generated_witness :
  ∃ tok,
    (GenerateToken demo_manager "u1" "ann" "ann@example.org" "admin"
       (10 * second) tick_clock).1 = Ok tok ∧
    (ExtractUserID demo_manager tok (at_tick tick_clock 5)).1 = Ok "u1".
Proof.
  apply (ExtractUserID_of_generated demo_manager "u1" "ann" "ann@example.org" "admin"
           (10 * second) tick_clock 5).
  - intros i j Hij. cbn. unfold second. lia.
  - cbn. lia.
  - by vm_compute.
Defined.

Lemma remaining_time_within_lifetime_witness : 0 ≤ 4 * second ≤ 10 * second.
Proof.
  apply (remaining_time_within_lifetime demo_manager "u1" "ann" "ann@example.org" "admin"
           (10 * second) tick_clock 5 demo_token (4 * second)).
  - intros i j Hij. cbn. unfold second. lia.
  - cbn. lia.
  - by vm_compute.
  - by vm_compute.
Defined.

(** A token issued at tick 0 with a lifetime of minus one second. *)
Definition stale_token : string :=
  match (GenerateToken demo_manager "u1" "ann" "ann@example.org" "admin"
           (- second) tick_clock).1 with
  | Ok t => t
  | Err _ => ""
  end.

Lemma negative_lifetime_is_expired_witness :
  (ValidateToken demo_manager stale_token (at_tick tick_clock 0)).1 =
    Err (Wrap "failed to parse token: " (Lib jwt_Expired)) ∧
  (IsTokenExpired demo_manager stale_token (at_tick tick_clock 0)).1 = true.
Proof.
  apply (negative_lifetime_is_expired demo_manager "u1" "ann" "ann@example.org" "admin"
           (- second) tick_clock 0 stale_token).
  - intros i j Hij. cbn. unfold second. lia.
  - unfold second. lia.
  - cbn. lia.
  - by vm_compute.
Defined.

Lemma other_secret_is_rejected_witness :
  (∃ e, (ValidateToken (NewJWTManager "guess" "auth") demo_token
           (at_tick tick_clock 5)).1 = Err e) ∧
  (∃ e, (ExtractUserID (NewJWTManager "guess" "auth") demo_token
           (at_tick tick_clock 5)).1 = Err e) ∧
  (IsTokenExpired (NewJWTManager "guess" "auth") demo_token (at_tick tick_clock 5)).1 = true.
Proof.
  apply (other_secret_is_rejected demo_manager (NewJWTManager "guess" "auth")
           "u1" "ann" "ann@example.org" "admin" (10 * second) tick_clock).
  - by vm_compute.
  - by vm_compute.
Defined.


Lemma refresh_keeps_user_id_witness :
  ∃ tok',
    (RefreshToken demo_manager demo_token (20 * second) (at_tick tick_clock 3)).1 = Ok tok' ∧
    (ExtractUserID demo_manager tok' (at_tick (at_tick tick_clock 3) 10)).1 = Ok "u1".
Proof.
  apply (refresh_keeps_user_id demo_manager demo_token (20 * second)
           (at_tick tick_clock 3) "u1" 10).
  - intros i j Hij. cbn. unfold second. lia.
  - by vm_compute.
  - cbn. lia.
  - by vm_compute.
Defined.

End TokenLife.

(** ** More of the cache client ([RedisClient]) *)

Module Store.
Import Cache.

(** Modelled from the spec: the two remaining store operations the
    client issues (section 4.3: delete and exists).  Both answer the
    number of keys found; DEL removes the key. *)
Definition server_DEL (key : string) (st : gmap string Entry)
  : Res Reply * gmap string Entry :=
  (Ok (RInt (match st !! key with Some _ => 1 | None => 0 end)), delete key st).

Definition server_EXISTS (key : string) (st : gmap string Entry)
  : Res Reply * gmap string Entry :=
  (Ok (RInt (match st !! key with Some _ => 1 | None => 0 end)), st).

(** One operation sent over the connection, as [roundtrip] sends a
    [Cmd]. *)
Definition roundtrip_with (exec : gmap string Entry → Res Reply * gmap string Entry)
    (r : Redis) : Res Reply * Redis :=
  match link r with
  | Some O => (Err (Lib redis_Unavailable), r)
  | l =>
      let '(reply, st') := exec (store r) in
      (reply, {| store := st'; link := Nat.pred <$> l |})
  end.

(** [func (r *RedisClient) Delete(key string) error] *)
Definition Delete (key : string) (r : RedisClient) : option error * RedisClient :=
  match roundtrip_with (server_DEL key) (Client r) with
  | (Err err, c') =>
      (Some (Wrap "failed to delete key: " err),
       log ErrorLevel "Failed to delete key from Redis" (with_Client r c'))
  | (Ok _, c') => (None, with_Client r c')
  end.

(** [func (r *RedisClient) Exists(key string) (bool, error)] *)
Definition Exists (key : string) (r : RedisClient) : (bool * option error) * RedisClient :=
  match roundtrip_with (server_EXISTS key) (Client r) with
  | (Err err, c') =>
      ((false, Some (Wrap "failed to check key existence: " err)),
       log ErrorLevel "Failed to check key existence" (with_Client r c'))
  | (Ok reply, c') =>
      let count := match reply with RInt n => n | _ => 0 end in
      ((0 <? count, None), with_Client r c')
  end.


Lemma roundtrip_as_roundtrip_with (c : Cmd) (r : Redis) :
  roundtrip c r = roundtrip_with (server_exec c) r.
Proof. done. Qed.

Section Values.
Variable Obj : Type.
Variable Marshal : Obj → Res string.
Variable Unmarshal : string → Res (GoValue Obj).
Variable App : Type.

(** The text [SetWithExpiration] stores for a value: a string as it
    is, anything else in its JSON form. *)
Definition stored_text (value : GoValue Obj) : Res string :=
  match value with
  | VString v => Ok v
  | VOther o => Marshal o
  end.

Lemma SetWithExpiration_ok (key : string) (value : GoValue Obj) (expiration : Z)
    (r : RedisClient) :
  (SetWithExpiration Obj Marshal key value expiration r).1 = None →
  ∃ s, stored_text value = Ok s ∧
       link (Client r) ≠ Some O ∧
       (SetWithExpiration Obj Marshal key value expiration r).2 =
       with_Client r
         {| store := <[key := {| Cache.value := s;
                                 ttl := if 0 <? expiration then Some expiration else None |}]>
                       (store (Client r));
            link := Nat.pred <$> link (Client r) |}.
Proof.
  unfold SetWithExpiration, stored_text, roundtrip.
  destruct r as [[st l] lg]; cbn.
  destruct value as [v|o]; [|destruct (Marshal o) as [v|e]; [|done]];
    (destruct l as [[|n]|]; cbn; [done|..]); intros _; by eexists.
Qed.

(** X7. What [SetWithExpiration] stored under a key is what [Get]
    reads back, and no other key is touched. *)
Theorem Get_after_SetWithExpiration (key s : string) (expiration : Z) (r : RedisClient) :
  (SetWithExpiration Obj Marshal key (VString s) expiration r).1 = None →
  link (Client (SetWithExpiration Obj Marshal key (VString s) expiration r).2) ≠ Some O →
  (Get key (SetWithExpiration Obj Marshal key (VString s) expiration r).2).1 = (s, None) ∧
  ∀ other, other ≠ key →
    store (Client (SetWithExpiration Obj Marshal key (VString s) expiration r).2) !! other =
    store (Client r) !! other.
Proof.
  intros Hset Hlink.
  destruct (SetWithExpiration_ok _ _ _ _ Hset) as (s' & [= <-] & _ & Heq).
  rewrite Heq in *. clear Heq. split.
  - rewrite Get_outcomes. cbn in *. rewrite lookup_insert_eq.
    by destruct (Nat.pred <$> link (Client r)) as [[|n]|].
  - intros other Hne. cbn. by rewrite lookup_insert_ne.
Qed.

(** A value that is not a string goes through JSON both ways:
    [GetAndUnmarshal] answers what [json.Unmarshal] makes of the text
    [json.Marshal] produced. *)
Lemma GetAndUnmarshal_after_SetWithExpiration (key : string) (o : Obj) (s : string)
    (expiration : Z) (r : RedisClient) :
  Marshal o = Ok s →
  (SetWithExpiration Obj Marshal key (VOther o) expiration r).1 = None →
  link (Client (SetWithExpiration Obj Marshal key (VOther o) expiration r).2) ≠ Some O →
  (GetAndUnmarshal Obj Unmarshal key
     (SetWithExpiration Obj Marshal key (VOther o) expiration r).2).1 =
  match Unmarshal s with
  | Ok dest => Ok dest
  | Err err => Err (Wrap "failed to unmarshal JSON: " err)
  end.
Proof.
  intros Hm Hset Hlink.
  destruct (SetWithExpiration_ok _ _ _ _ Hset) as (s' & Hs & _ & Heq).
  cbn in Hs. rewrite Hm in Hs. injection Hs as <-.
  rewrite Heq in *. clear Heq. unfold GetAndUnmarshal.
  rewrite Get_outcomes. cbn in *. rewrite lookup_insert_eq.
  destruct (Nat.pred <$> link (Client r)) as [[|n]|]; [done|..]; cbn;
    by destruct (Unmarshal s).
Qed.

(** On a hit [CacheWithCallback] answers the cached value and
    leaves the callback alone: no invocation, the caller's state and
    the store as they were. *)
Lemma CacheWithCallback_on_hit (key : string) (expiration : Z)
    (callback : App → Res (GoValue Obj) * App) (w : World App) (cached : GoValue Obj) :
  (GetAndUnmarshal Obj Unmarshal key (redis w)).1 = Ok cached →
  (CacheWithCallback Obj Marshal Unmarshal App key expiration callback w).1 = Ok cached ∧
  calls (CacheWithCallback Obj Marshal Unmarshal App key expiration callback w).2 = calls w ∧
  app (CacheWithCallback Obj Marshal Unmarshal App key expiration callback w).2 = app w ∧
  store (Client (redis (CacheWithCallback Obj Marshal Unmarshal App key expiration
                          callback w).2)) = store (Client (redis w)).
Proof.
  intros Hhit. unfold CacheWithCallback.
  pose proof (GetAndUnmarshal_store Obj Unmarshal key (redis w)) as Hst.
  destruct (GetAndUnmarshal Obj Unmarshal key (redis w)) as [[v|e] r1]; [|done].
  cbn in *. by injection Hhit as ->.
Qed.

(** X8. Cache-aside: after a miss whose callback answered a value that
    was written back, the next call on a working connection is a hit.
    It answers what the stored text deserializes to and does not run its
    callback, whatever that callback is. *)
Theorem CacheWithCallback_second_call_hits (key : string) (expiration expiration' : Z)
    (callback callback' : App → Res (GoValue Obj) * App) (w : World App)
    (e : error) (data cached : GoValue Obj) (s : string) :
  link (Client (redis w)) = None →
  (GetAndUnmarshal Obj Unmarshal key (redis w)).1 = Err e →
  (callback (app w)).1 = Ok data →
  stored_text data = Ok s →
  Unmarshal s = Ok cached →
  (CacheWithCallback Obj Marshal Unmarshal App key expiration callback w).1 = Ok data ∧
  (CacheWithCallback Obj Marshal Unmarshal App key expiration' callback'
     (CacheWithCallback Obj Marshal Unmarshal App key expiration callback w).2).1 = Ok cached ∧
  calls (CacheWithCallback Obj Marshal Unmarshal App key expiration' callback'
           (CacheWithCallback Obj Marshal Unmarshal App key expiration callback w).2).2 =
    S (calls w) ∧
  app (CacheWithCallback Obj Marshal Unmarshal App key expiration' callback'
         (CacheWithCallback Obj Marshal Unmarshal App key expiration callback w).2).2 =
    (callback (app w)).2.
Proof.
  intros Hlink Hmiss Hcb Htext Hdec.
  assert (Hfirst : ∃ w1,
    CacheWithCallback Obj Marshal Unmarshal App key expiration callback w = (Ok data, w1) ∧
    calls w1 = S (calls w) ∧ app w1 = (callback (app w)).2 ∧
    link (Client (redis w1)) = None ∧
    Cache.value <$> store (Client (redis w1)) !! key = Some s).
  { unfold CacheWithCallback, GetAndUnmarshal in *. rewrite Get_outcomes in *.
    destruct w as [[[st l] lg] a n]; cbn in *. subst l.
    destruct (callback a) as [res a']; cbn in *. subst res.
    destruct (st !! key) as [ent|]; cbn in *.
    - destruct (Unmarshal (Cache.value ent)); [done|]. cbn.
      unfold SetWithExpiration, roundtrip. fold (stored_text data). rewrite Htext. cbn.
      eexists. split; [done|]. cbn. by rewrite lookup_insert_eq.
    - unfold SetWithExpiration, roundtrip. fold (stored_text data). rewrite Htext. cbn.
      eexists. split; [done|]. cbn. by rewrite lookup_insert_eq. }
  destruct Hfirst as (w1 & -> & Hcalls & Happ & Hl1 & Hk1). cbn [fst snd].
  split; [done|].
  assert (Hhit : GetAndUnmarshal Obj Unmarshal key (redis w1) =
                 (Ok cached, with_Client (redis w1)
                    {| store := store (Client (redis w1)); link := None |})).
  { unfold GetAndUnmarshal. rewrite Get_outcomes, Hl1.
    destruct (store (Client (redis w1)) !! key) as [ent|]; [|done].
    injection Hk1 as ->. cbn. by rewrite Hdec. }
  unfold CacheWithCallback at 1 2 3. rewrite Hhit. cbn. by rewrite Hcalls, Happ.
Qed.

End Values.

(** X9. After a [Delete] that reported no error the key is gone: a
    lookup reports it as not found, [Exists] answers false, and every
    other key is as it was.  This also holds when the key was not there
    before. *)
Theorem Delete_then_absent (key : string) (r : RedisClient) :
  (Delete key r).1 = None →
  store (Client (Delete key r).2) = delete key (store (Client r)) ∧
  (link (Client (Delete key r).2) ≠ Some O →
   (Get key (Delete key r).2).1 = ("", Some (New ("key not found: " +:+ key))) ∧
   (Exists key (Delete key r).2).1 = (false, None)).
Proof.
  unfold Delete, roundtrip_with, server_DEL. destruct r as [[st l] lg]; cbn.
  destruct l as [[|n]|]; cbn; [done|..]; intros _; (split; [done|]); intros Hl.
  - rewrite Get_outcomes. unfold Exists, roundtrip_with, server_EXISTS. cbn.
    rewrite lookup_delete_eq. by destruct n.
  - rewrite Get_outcomes. unfold Exists, roundtrip_with, server_EXISTS. cbn.
    by rewrite lookup_delete_eq.
Qed.

(** X10. [Exists] and [Get] agree: from the same state, [Exists]
    answers true exactly when [Get] returns a value without error. *)
Theorem Exists_iff_Get_succeeds (key : string) (r : RedisClient) :
  (Exists key r).1.1 = true ↔ (Get key r).1.2 = None.
Proof.
  rewrite Get_outcomes. unfold Exists, roundtrip_with, server_EXISTS.
  destruct r as [[st l] lg]; cbn.
  destruct l as [[|n]|]; cbn; [done|..]; by destruct (st !! key).
Qed.








(** *** On concrete stores *)


Lemma Get_after_SetWithExpiration_witness :
  (Get "k" (SetWithExpiration Z int_Marshal "k" (VString "hello") second (fresh None)).2).1
    = ("hello", None) ∧
  ∀ other, other ≠ "k" →
    store (Client (SetWithExpiration Z int_Marshal "k" (VString "hello") second
                     (fresh None)).2) !! other =
    store (Client (fresh None)) !! other.
Proof.
  apply (Get_after_SetWithExpiration Z int_Marshal "k" "hello" second (fresh None)).
  - reflexivity.
  - discriminate.
Defined.

Lemma GetAndUnmarshal_after_SetWithExpiration_witness :
  (GetAndUnmarshal Z int_Unmarshal "k"
     (SetWithExpiration Z int_Marshal "k" (VOther 42) second (fresh None)).2).1 =
  match int_Unmarshal "42" with
  | Ok dest => Ok dest
  | Err err => Err (Wrap "failed to unmarshal JSON: " err)
  end.
Proof.
  apply (GetAndUnmarshal_after_SetWithExpiration Z int_Marshal int_Unmarshal "k" 42 "42"
           second (fresh None)).
  - reflexivity.
  - reflexivity.
  - discriminate.
Defined.

(** A store that holds the text 42 under k. *)
Definition holding_42 : RedisClient :=
  (SetWithExpiration Z int_Marshal "k" (VString "42") second (fresh None)).2.

(** A callback that always fails. *)
Definition failing (n : nat) : Res (GoValue Z) * nat := (Err (New "boom"), S n).

Lemma CacheWithCallback_on_hit_witness :
  let w := {| redis := holding_42; app := 0%nat; calls := 0 |} in
  (CacheWithCallback Z int_Marshal int_Unmarshal nat "k" second failing w).1
    = Ok (VOther 42) ∧
  calls (CacheWithCallback Z int_Marshal int_Unmarshal nat "k" second failing w).2 = 0%nat ∧
  app (CacheWithCallback Z int_Marshal int_Unmarshal nat "k" second failing w).2 = 0%nat ∧
  store (Client (redis (CacheWithCallback Z int_Marshal int_Unmarshal nat "k" second
                          failing w).2)) = store (Client holding_42).
Proof.
  apply (CacheWithCallback_on_hit Z int_Marshal int_Unmarshal nat "k" second failing
           {| redis := holding_42; app := 0%nat; calls := 0 |} (VOther 42)).
  reflexivity.
Defined.

(** A callback that answers the text 42 as a string. *)
Definition answer_text_42 (n : nat) : Res (GoValue Z) * nat := (Ok (VString "42"), S n).

Lemma CacheWithCallback_second_call_hits_witness :
  let w := {| redis := fresh None; app := 0%nat; calls := 0 |} in
  (CacheWithCallback Z int_Marshal int_Unmarshal nat "k" second answer_text_42 w).1
    = Ok (VString "42") ∧
  (CacheWithCallback Z int_Marshal int_Unmarshal nat "k" second failing
     (CacheWithCallback Z int_Marshal int_Unmarshal nat "k" second answer_text_42 w).2).1
    = Ok (VOther 42) ∧
  calls (CacheWithCallback Z int_Marshal int_Unmarshal nat "k" second failing
           (CacheWithCallback Z int_Marshal int_Unmarshal nat "k" second answer_text_42
              w).2).2 = 1%nat ∧
  app (CacheWithCallback Z int_Marshal int_Unmarshal nat "k" second failing
         (CacheWithCallback Z int_Marshal int_Unmarshal nat "k" second answer_text_42
            w).2).2 = 1%nat.
Proof.
  apply (CacheWithCallback_second_call_hits Z int_Marshal int_Unmarshal nat "k" second second
           answer_text_42 failing {| redis := fresh None; app := 0%nat; calls := 0 |}
           (New "key not found: k") (VString "42") (VOther 42) "42");
    reflexivity.
Defined.

Lemma Delete_then_absent_witness :
  store (Client (Delete "k" holding_42).2) = delete "k" (store (Client holding_42)) ∧
  (link (Client (Delete "k" holding_42).2) ≠ Some O →
   (Get "k" (Delete "k" holding_42).2).1 = ("", Some (New ("key not found: " +:+ "k"))) ∧
   (Exists "k" (Delete "k" holding_42).2).1 = (false, None)).
Proof. apply (Delete_then_absent "k" holding_42). reflexivity. Defined.




End Store.

(** ** Pagination helpers ([response.go]) *)

Module Paging.

(** Go's [int] on the 64-bit targets the services are built for:
    arithmetic wraps around, division truncates toward zero and panics
    on a zero divisor. *)
Definition min_int : Z := - 2 ^ 63.
Definition max_int : Z := 2 ^ 63 - 1.

Definition wrap (z : Z) : Z := (z - min_int) mod 2 ^ 64 + min_int.

Definition int_add (a b : Z) : Z := wrap (a + b).
Definition int_sub (a b : Z) : Z := wrap (a - b).
Definition int_mul (a b : Z) : Z := wrap (a * b).

(** [None]: the run-time panic on division by zero. *)
Definition int_div (a b : Z) : option Z :=
  if b =? 0 then None else Some (wrap (Z.quot a b)).

(** [type MetaInfo struct] *)
Record MetaInfo := {
  Page : Z;
  Limit : Z;
  Total : Z;
  TotalPages : Z
}.

Section Query.
(** [strconv.Atoi] *)
Variable Atoi : string → Res Z.

(** [func GetPaginationParams(c *gin.Context) (page int, limit int)],
    on the two query parameters [c.Query] hands it (the empty string
    for a parameter that is not there). *)
Definition GetPaginationParams (pageStr limitStr : string) : Z * Z :=
  let page := 1 in
  let limit := 10 in
  let page :=
    if decide (pageStr ≠ "") then
      match Atoi pageStr with
      | Ok p => if 0 <? p then p else page
      | Err _ => page
      end
    else page in
  let limit :=
    if decide (limitStr ≠ "") then
      match Atoi limitStr with
      | Ok l => if (0 <? l) && (l <=? 100) then l else limit
      | Err _ => limit
      end
    else limit in
  (page, limit).

End Query.

(** [func CalculateOffset(page, limit int) int] *)
Definition CalculateOffset (page limit : Z) : Z := int_mul (int_sub page 1) limit.

(** The meta block of [PaginatedResponse]: [None] when the division
    panics. *)
Definition PaginatedResponse_meta (page limit total : Z) : option MetaInfo :=
  match int_div (int_sub (int_add total limit) 1) limit with
  | None => None
  | Some totalPages =>
      Some {| Page := page; Limit := limit; Total := total; TotalPages := totalPages |}
  end.

Lemma wrap_id (z : Z) : min_int ≤ z ≤ max_int → wrap z = z.
Proof.
  unfold wrap, min_int, max_int. intros Hz.
  rewrite Z.mod_small; lia.
Qed.

Lemma GetPaginationParams_range (Atoi : string → Res Z) (pageStr limitStr : string) :
  1 ≤ (GetPaginationParams Atoi pageStr limitStr).1 ∧
  1 ≤ (GetPaginationParams Atoi pageStr limitStr).2 ≤ 100.
Proof.
  unfold GetPaginationParams; cbn [fst snd]. split.
  - case_decide; [|lia]. destruct (Atoi pageStr) as [p|]; [|lia].
    destruct (Z.ltb_spec 0 p); lia.
  - case_decide; [|lia]. destruct (Atoi limitStr) as [l|]; [|lia].
    destruct (Z.ltb_spec 0 l), (Z.leb_spec l 100); cbn; lia.
Qed.

Lemma ceiling_division (total limit : Z) :
  1 ≤ limit → 0 ≤ total → total + limit ≤ max_int →
  ∃ totalPages,
    int_div (int_sub (int_add total limit) 1) limit = Some totalPages ∧
    total ≤ totalPages * limit < total + limit.
Proof.
  intros Hl Ht Hmax. unfold int_div, int_sub, int_add.
  assert (Hmin : min_int < 0) by (unfold min_int; lia).
  rewrite (proj2 (Z.eqb_neq _ _)) by lia.
  rewrite (wrap_id (total + limit)) by lia.
  rewrite (wrap_id (total + limit - 1)) by lia.
  rewrite Z.quot_div_nonneg by lia.
  pose proof (Z.div_mod (total + limit - 1) limit ltac:(lia)) as Hdm.
  pose proof (Z.mod_pos_bound (total + limit - 1) limit ltac:(lia)) as Hmod.
  assert (Hq : 0 ≤ (total + limit - 1) / limit) by (apply Z.div_pos; lia).
  assert (Hq' : (total + limit - 1) / limit ≤ total + limit - 1)
    by (apply Z.div_le_upper_bound; nia).
  rewrite wrap_id by lia.
  eexists. split; [done|]. nia.
Qed.

(** Whatever the query string holds, [GetPaginationParams] answers
    a page of at least 1 and a limit between 1 and 100; a parameter that
    is missing, not a number or out of range counts as its default. *)
Lemma GetPaginationParams_sanitizes (Atoi : string → Res Z) (pageStr limitStr : string) :
  let '(page, limit) := GetPaginationParams Atoi pageStr limitStr in
  1 ≤ page ∧ 1 ≤ limit ≤ 100 ∧
  (page = 1 ∨ Atoi pageStr = Ok page) ∧
  (limit = 10 ∨ Atoi limitStr = Ok limit).
Proof.
  pose proof (GetPaginationParams_range Atoi pageStr limitStr) as [Hp Hl].
  destruct (GetPaginationParams Atoi pageStr limitStr) as [page limit] eqn:Heq.
  cbn [fst snd] in *. split_and!; try lia.
  - unfold GetPaginationParams in Heq. injection Heq as <- _.
    case_decide; [|by left]. destruct (Atoi pageStr) as [p|]; [|by left].
    destruct (0 <? p); eauto.
  - unfold GetPaginationParams in Heq. injection Heq as _ <-.
    case_decide; [|by left]. destruct (Atoi limitStr) as [l|]; [|by left].
    destruct ((0 <? l) && (l <=? 100)); eauto.
Qed.

(** X15. Fed with the limit [GetPaginationParams] answers,
    [PaginatedResponse] never divides by zero, and for a total that is
    not negative its page count is the ceiling of total over limit: the
    least number of pages of that size that hold all the rows. *)
Theorem PaginatedResponse_total_pages (Atoi : string → Res Z) (pageStr limitStr : string)
    (total : Z) :
  0 ≤ total ≤ max_int - 100 →
  let '(page, limit) := GetPaginationParams Atoi pageStr limitStr in
  ∃ meta,
    PaginatedResponse_meta page limit total = Some meta ∧
    Page meta = page ∧ Limit meta = limit ∧ Total meta = total ∧
    total ≤ TotalPages meta * limit < total + limit.
Proof.
  intros Ht.
  pose proof (GetPaginationParams_range Atoi pageStr limitStr) as [Hp Hl].
  destruct (GetPaginationParams Atoi pageStr limitStr) as [page limit].
  cbn [fst snd] in *. unfold PaginatedResponse_meta.
  destruct (ceiling_division total limit) as (tp & -> & Htp); [lia..|].
  by eexists.
Qed.

(** Pages tile the rows: the first page starts at offset 0, and
    each page starts where the one before it ends, as long as the
    product fits an [int]. *)
Lemma CalculateOffset_pages_tile (page limit : Z) :
  1 ≤ page → 1 ≤ limit → page * limit ≤ max_int →
  CalculateOffset 1 limit = 0 ∧
  CalculateOffset page limit = (page - 1) * limit ∧
  CalculateOffset (page + 1) limit = CalculateOffset page limit + limit.
Proof.
  intros Hp Hl Hmax. unfold CalculateOffset, int_mul, int_sub.
  assert (Hmin : min_int < 0) by (unfold min_int; lia).
  assert (Hmax' : page ≤ max_int) by nia.
  assert (Hlim : limit ≤ max_int) by nia.
  rewrite !(wrap_id (1 - 1)), !(wrap_id (page - 1)), !(wrap_id (page + 1 - 1)) by lia.
  rewrite (wrap_id ((1 - 1) * limit)) by lia.
  rewrite (wrap_id ((page - 1) * limit)) by nia.
  rewrite (wrap_id ((page + 1 - 1) * limit)) by nia.
  split_and!; lia.
Qed.

(** The product can leave the [int] range: a page number the parser
    accepts gives a negative offset. *)
Lemma CalculateOffset_wraps : CalculateOffset (2 ^ 62 + 1) 4 = 0 ∧ CalculateOffset (2 ^ 62) 4 = -4.
Proof. split; by vm_compute. Qed.

Lemma PaginatedResponse_total_pages_witness :
  let '(page, limit) := GetPaginationParams (λ _, Ok 7) "7" "7" in
  ∃ meta,
    PaginatedResponse_meta page limit 15 = Some meta ∧
    Page meta = page ∧ Limit meta = limit ∧ Total meta = 15 ∧
    15 ≤ TotalPages meta * limit < 15 + limit.
Proof.
  apply (PaginatedResponse_total_pages (λ _, Ok 7) "7" "7" 15). by vm_compute.
Defined.

Lemma CalculateOffset_pages_tile_witness :
  CalculateOffset 1 10 = 0 ∧
  CalculateOffset 3 10 = (3 - 1) * 10 ∧
  CalculateOffset (3 + 1) 10 = CalculateOffset 3 10 + 10.
Proof. apply (CalculateOffset_pages_tile 3 10); by vm_compute. Defined.

End Paging.

(** ** The user service's handlers (package main) *)

Module Accounts.

(** [type User struct] *)
Record User := {
  ID : Z;
  Username : string;
  Email : string;
  FullName : string;
  Password : string;
  IsActive : bool;
  CreatedAt : Z;
  UpdatedAt : Z
}.

(** [type CreateUserRequest struct]; the fields carry the prefix [req_]
    to keep them apart from those of [User]. *)
Record CreateUserRequest := {
  req_Username : string;
  req_Email : string;
  req_FullName : string;
  req_Password : string
}.

(** What a handler hands to [c.JSON]: the status code and the keys of
    the [gin.H] it builds, those it leaves out being [None]. *)
Inductive Data :=
  | DUser (u : User)
  | DUsers (us : list User).

Record Response := {
  status : Z;
  success : bool;
  error_text : option string;
  message : string;
  data : option Data;
  meta : option Paging.MetaInfo
}.

Definition StatusOK : Z := 200.
Definition StatusCreated : Z := 201.
Definition StatusBadRequest : Z := 400.
Definition StatusNotFound : Z := 404.
Definition StatusConflict : Z := 409.
Definition StatusInternalServerError : Z := 500.

(** [gin.H{"success": false, "error": ..., "message": ...}] *)
Definition failure (code : Z) (err msg : string) : Response :=
  {| status := code; success := false; error_text := Some err; message := msg;
     data := None; meta := None |}.

Section Service.
Variable DB : Type.
Variable CheckUsernameExists : DB → string → Z → Res bool.
Variable CheckEmailExists : DB → string → Z → Res bool.
(** [db.Exec(query, args...)] followed by [result.RowsAffected()]. *)
Variable Exec : DB → string → list Users.Arg → Res Z * DB.
Variable range : gmap string Users.Arg → list (string * Users.Arg).
(** [db.QueryRow(query, args...).Scan(&user.ID)] *)
Variable QueryRow : DB → string → list Users.Arg → Res Z * DB.
(** [db.Get(&user, query, id)], [db.Get(&total, countQuery)] and
    [db.Select(&users, query, limit, offset)] *)
Variable Get_user : DB → string → Z → Res User.
Variable Get_count : DB → string → Res Z.
Variable Select_users : DB → string → Z → Z → Res (list User).
(** [bcrypt.GenerateFromPassword] at the default cost *)
Variable GenerateFromPassword : string → Res string.
(** [strconv.Atoi] *)
Variable Atoi : string → Res Z.

Definition insert_query : string :=
  "INSERT INTO users (username, email, full_name, password_hash, is_active, created_at, updated_at) VALUES ($1, $2, $3, $4, $5, $6, $7) RETURNING id".

(** [func (ur *UserRepository) CreateUser(user *User) error]; the user
    comes back with the identifier the database assigned. *)
Definition UserRepository_CreateUser (user : User) (db : DB) : Res User * DB :=
  match QueryRow db insert_query
          [Users.AString (Username user); Users.AString (Email user);
           Users.AString (FullName user); Users.AString (Password user);
           Users.ABool (IsActive user); Users.ATime (CreatedAt user);
           Users.ATime (UpdatedAt user)] with
  | (Err err, db') => (Err (Wrap "failed to create user: " err), db')
  | (Ok id, db') =>
      (Ok {| ID := id; Username := Username user; Email := Email user;
             FullName := FullName user; Password := Password user;
             IsActive := IsActive user; CreatedAt := CreatedAt user;
             UpdatedAt := UpdatedAt user |}, db')
  end.

(** [func (ur *UserRepository) GetUserByID(id int)], which returns the
    user or an error. *)
Definition UserRepository_GetUserByID (id : Z) (db : DB) : Res User :=
  match Get_user db
          "SELECT id, username, email, full_name, password_hash, is_active, created_at, updated_at FROM users WHERE id = $1"
          id with
  | Err err => Err (Wrap "failed to get user: " err)
  | Ok user => Ok user
  end.

(** [func (ur *UserRepository) GetAllUsers(limit, offset int) ([]User, int, error)] *)
Definition UserRepository_GetAllUsers (limit offset : Z) (db : DB) : Res (list User * Z) :=
  match Get_count db "SELECT COUNT(*) FROM users" with
  | Err err => Err (Wrap "failed to get user count: " err)
  | Ok total =>
      match Select_users db
              "SELECT id, username, email, full_name, password_hash, is_active, created_at, updated_at FROM users ORDER BY created_at DESC LIMIT $1 OFFSET $2"
              limit offset with
      | Err err => Err (Wrap "failed to get users: " err)
      | Ok users => Ok (users, total)
      end
  end.

(** [func (ur *UserRepository) DeleteUser(id int) error] *)
Definition UserRepository_DeleteUser (id : Z) (db : DB) : option error * DB :=
  match Exec db "DELETE FROM users WHERE id = $1" [Users.AInt id] with
  | (Err err, db') => (Some (Wrap "failed to delete user: " err), db')
  | (Ok rowsAffected, db') =>
      if rowsAffected =? 0 then (Some (New "user not found"), db') else (None, db')
  end.

(** [func (us *UserService) CreateUser(req CreateUserRequest)], which
    returns the user or an error; [now] is what [time.Now()] reads. *)
Definition UserService_CreateUser (req : CreateUserRequest) (now : Z) (db : DB)
  : Res User * DB :=
  match CheckEmailExists db (req_Email req) 0 with
  | Err err => (Err (Wrap "failed to check email: " err), db)
  | Ok true => (Err (New "email already exists"), db)
  | Ok false =>
      match CheckUsernameExists db (req_Username req) 0 with
      | Err err => (Err (Wrap "failed to check username: " err), db)
      | Ok true => (Err (New "username already exists"), db)
      | Ok false =>
          match GenerateFromPassword (req_Password req) with
          | Err err => (Err (Wrap "failed to hash password: " err), db)
          | Ok hashedPassword =>
              let user :=
                {| ID := 0; Username := req_Username req; Email := req_Email req;
                   FullName := req_FullName req; Password := hashedPassword;
                   IsActive := true; CreatedAt := now; UpdatedAt := now |} in
              UserRepository_CreateUser user db
          end
      end
  end.

(** [func (us *UserService) GetAllUsers(page, limit int) ([]User, int, error)] *)
Definition UserService_GetAllUsers (page limit : Z) (db : DB) : Res (list User * Z) :=
  let offset := Paging.int_mul (Paging.int_sub page 1) limit in
  UserRepository_GetAllUsers limit offset db.

(** [func (uh *UserHandler) CreateUser(c *gin.Context)]; [bind] is what
    [c.ShouldBindJSON(&req)] made of the request body. *)
Definition UserHandler_CreateUser (bind : Res CreateUserRequest) (now : Z) (db : DB)
  : Response * DB :=
  match bind with
  | Err err => (failure StatusBadRequest "Invalid JSON format" (Error err), db)
  | Ok req =>
      match UserService_CreateUser req now db with
      | (Err err, db') =>
          let statusCode :=
            if String.eqb (Error err) "email already exists"
               || String.eqb (Error err) "username already exists"
            then StatusConflict else StatusInternalServerError in
          (failure statusCode "Failed to create user" (Error err), db')
      | (Ok user, db') =>
          ({| status := StatusCreated; success := true; error_text := None;
              message := "User created successfully";
              data := Some (DUser user); meta := None |}, db')
      end
  end.

(** The page and limit [UserHandler.GetUsers] reads from the query. *)
Definition GetUsers_params (pageStr limitStr : string) : Z * Z :=
  let page := 1 in
  let limit := 10 in
  let page :=
    if decide (pageStr ≠ "") then
      match Atoi pageStr with
      | Ok p => if 0 <? p then p else page
      | Err _ => page
      end
    else page in
  let limit :=
    if decide (limitStr ≠ "") then
      match Atoi limitStr with
      | Ok l => if (0 <? l) && (l <=? 100) then l else limit
      | Err _ => limit
      end
    else limit in
  (page, limit).

(** [func (uh *UserHandler) GetUsers(c *gin.Context)]; [None] is the
    panic of a division by zero. *)
Definition UserHandler_GetUsers (pageStr limitStr : string) (db : DB) : option Response :=
  let '(page, limit) := GetUsers_params pageStr limitStr in
  match UserService_GetAllUsers page limit db with
  | Err err => Some (failure StatusInternalServerError "Failed to get users" (Error err))
  | Ok (users, total) =>
      match Paging.int_div (Paging.int_sub (Paging.int_add total limit) 1) limit with
      | None => None
      | Some totalPages =>
          Some {| status := StatusOK; success := true; error_text := None;
                  message := "Users retrieved successfully";
                  data := Some (DUsers users);
                  meta := Some {| Paging.Page := page; Paging.Limit := limit;
                                  Paging.Total := total;
                                  Paging.TotalPages := totalPages |} |}
      end
  end.

(** [func (uh *UserHandler) GetUser(c *gin.Context)] *)
Definition UserHandler_GetUser (idParam : string) (db : DB) : Response :=
  match Atoi idParam with
  | Err _ => failure StatusBadRequest "Invalid user ID format" "User ID must be a number"
  | Ok id =>
      match UserRepository_GetUserByID id db with
      | Err err => failure StatusNotFound "User not found" (Error err)
      | Ok user =>
          {| status := StatusOK; success := true; error_text := None;
             message := "User retrieved successfully";
             data := Some (DUser user); meta := None |}
      end
  end.

(** [func (uh *UserHandler) UpdateUser(c *gin.Context)] *)
Definition UserHandler_UpdateUser (idParam : string) (bind : Res Users.UpdateUserRequest)
    (now : Z) (db : DB) : Response * DB :=
  match Atoi idParam with
  | Err _ =>
      (failure StatusBadRequest "Invalid user ID format" "User ID must be a number", db)
  | Ok id =>
      match bind with
      | Err err => (failure StatusBadRequest "Invalid JSON format" (Error err), db)
      | Ok req =>
          match Users.UserService_UpdateUser DB CheckUsernameExists CheckEmailExists
                  Exec range id req now db with
          | (Some err, db') =>
              let statusCode :=
                if String.eqb (Error err) "user not found" then StatusNotFound
                else if String.eqb (Error err) "email already exists"
                        || String.eqb (Error err) "username already exists"
                then StatusConflict
                else StatusInternalServerError in
              (failure statusCode "Failed to update user" (Error err), db')
          | (None, db') =>
              ({| status := StatusOK; success := true; error_text := None;
                  message := "User updated successfully"; data := None; meta := None |},
               db')
          end
      end
  end.

(** [func (uh *UserHandler) DeleteUser(c *gin.Context)] *)
Definition UserHandler_DeleteUser (idParam : string) (db : DB) : Response * DB :=
  match Atoi idParam with
  | Err _ =>
      (failure StatusBadRequest "Invalid user ID format" "User ID must be a number", db)
  | Ok id =>
      match UserRepository_DeleteUser id db with
      | (Some err, db') =>
          let statusCode :=
            if String.eqb (Error err) "user not found" then StatusNotFound
            else StatusInternalServerError in
          (failure statusCode "Failed to delete user" (Error err), db')
      | (None, db') =>
          ({| status := StatusOK; success := true; error_text := None;
              message := "User deleted successfully"; data := None; meta := None |},
           db')
      end
  end.

(** *** Updates *)

(** The errors [UserService.UpdateUser] returns before it reaches the
    repository, and what caused each. *)
Lemma UpdateUser_updates_Err (id : Z) (req : Users.UpdateUserRequest) (db : DB) (e : error) :
  Users.UpdateUser_updates DB CheckUsernameExists CheckEmailExists id req db = Err e →
  (Users.Username req ≠ "" ∧
   ((∃ c, CheckUsernameExists db (Users.Username req) id = Err c ∧
          e = Wrap "failed to check username: " c) ∨
    (CheckUsernameExists db (Users.Username req) id = Ok true ∧
     e = New "username already exists"))) ∨
  ((Users.Username req = "" ∨ CheckUsernameExists db (Users.Username req) id = Ok false) ∧
   Users.Email req ≠ "" ∧
   ((∃ c, CheckEmailExists db (Users.Email req) id = Err c ∧
          e = Wrap "failed to check email: " c) ∨
    (CheckEmailExists db (Users.Email req) id = Ok true ∧
     e = New "email already exists"))).
Proof.
  unfold Users.UpdateUser_updates. intros He.
  destruct (decide (Users.Username req = "")) as [Hu|Hu].
  - right. split; [by left|].
    destruct (decide (Users.Email req = "")) as [Hm|Hm]; [done|]. split; [done|].
    destruct (CheckEmailExists db (Users.Email req) id) as [[]|c]; simplify_eq; eauto.
  - destruct (CheckUsernameExists db (Users.Username req) id) as [[]|c] eqn:Hc;
      simplify_eq; [left; eauto|right|left; eauto].
    split; [by right|].
    destruct (decide (Users.Email req = "")) as [Hm|Hm]; [done|]. split; [done|].
    destruct (CheckEmailExists db (Users.Email req) id) as [[]|c]; simplify_eq; eauto.
Qed.

Lemma UpdateUser_updates_Ok (id : Z) (req : Users.UpdateUserRequest) (db : DB)
    (updates : gmap string Users.Arg) :
  Users.UpdateUser_updates DB CheckUsernameExists CheckEmailExists id req db = Ok updates →
  (Users.Username req = "" ∨ CheckUsernameExists db (Users.Username req) id = Ok false) ∧
  (Users.Email req = "" ∨ CheckEmailExists db (Users.Email req) id = Ok false).
Proof.
  unfold Users.UpdateUser_updates. intros Hu.
  destruct (decide (Users.Username req = "")) as [Hn|Hn];
    [|destruct (CheckUsernameExists db (Users.Username req) id) as [[]|c]; [done| |done]];
    (destruct (decide (Users.Email req = "")) as [Hm|Hm];
     [|destruct (CheckEmailExists db (Users.Email req) id) as [[]|c']; [done| |done]]);
    auto.
Qed.

(** What [UserService.UpdateUser] comes to, by what its map holds. *)
Lemma UserService_UpdateUser_cases (id : Z) (req : Users.UpdateUserRequest) (now : Z)
    (db : DB) :
  match Users.UpdateUser_updates DB CheckUsernameExists CheckEmailExists id req db with
  | Err e =>
      Users.UserService_UpdateUser DB CheckUsernameExists CheckEmailExists Exec range
        id req now db = (Some e, db)
  | Ok updates =>
      if decide (size updates = 0%nat) then
        Users.UserService_UpdateUser DB CheckUsernameExists CheckEmailExists Exec range
          id req now db = (Some (New "no fields to update"), db)
      else
        Users.UserService_UpdateUser DB CheckUsernameExists CheckEmailExists Exec range
          id req now db =
        match Exec db (Users.UpdateUser_statement id (range updates) now).1
                      (Users.UpdateUser_statement id (range updates) now).2 with
        | (Err err, db') => (Some (Wrap "failed to update user: " err), db')
        | (Ok rows, db') =>
            if rows =? 0 then (Some (New "user not found"), db') else (None, db')
        end
  end.
Proof.
  destruct (Users.UpdateUser_updates _ _ _ id req db) as [updates|e] eqn:Hu.
  - case_decide as Hsz.
    + unfold Users.UserService_UpdateUser, Users.UserRepository_UpdateUser.
      rewrite Hu. by case_decide.
    + by apply Users.UserService_UpdateUser_exec.
  - unfold Users.UserService_UpdateUser. by rewrite Hu.
Qed.

(** A request that names a field leaves a map that is not empty. *)
Lemma UpdateUser_updates_size (id : Z) (req : Users.UpdateUserRequest) (db : DB)
    (updates : gmap string Users.Arg) :
  Users.UpdateUser_updates DB CheckUsernameExists CheckEmailExists id req db = Ok updates →
  size updates = 0%nat →
  Users.Username req = "" ∧ Users.Email req = "" ∧ Users.FullName req = "" ∧
  Users.IsActive req = None.
Proof.
  intros Hu Hsz. apply map_size_empty_iff in Hsz. subst updates.
  unfold Users.UpdateUser_updates in Hu.
  destruct (decide (Users.Username req = "")) as [Hn|Hn];
    [|destruct (CheckUsernameExists db (Users.Username req) id) as [[]|c]; [done| |done]];
    (destruct (decide (Users.Email req = "")) as [Hm|Hm];
     [|destruct (CheckEmailExists db (Users.Email req) id) as [[]|c']; [done| |done]]);
    destruct (decide (Users.FullName req = "")) as [Hf|Hf];
    destruct (Users.IsActive req) as [b|];
    cbn in Hu;
    first [by split_and! | injection Hu as Hu; by apply insert_non_empty in Hu].
Qed.

(** X16. [UserHandler.UpdateUser] answers 500 with the message "no
    fields to update" exactly when the request names no field; no
    statement is executed then and the database is as it was. *)
Theorem UpdateUser_no_fields_iff (idParam : string) (id : Z)
    (req : Users.UpdateUserRequest) (now : Z) (db : DB) :
  Atoi idParam = Ok id →
  ((UserHandler_UpdateUser idParam (Ok req) now db).1 =
     failure StatusInternalServerError "Failed to update user" "no fields to update" ↔
   Users.Username req = "" ∧ Users.Email req = "" ∧ Users.FullName req = "" ∧
   Users.IsActive req = None) ∧
  ((UserHandler_UpdateUser idParam (Ok req) now db).1 =
     failure StatusInternalServerError "Failed to update user" "no fields to update" →
   (UserHandler_UpdateUser idParam (Ok req) now db).2 = db).
Proof.
  intros Hid. unfold UserHandler_UpdateUser. rewrite Hid.
  pose proof (UserService_UpdateUser_cases id req now db) as Hcases.
  destruct (Users.UpdateUser_updates _ _ _ id req db) as [updates|e] eqn:Hu.
  - case_decide as Hsz; rewrite Hcases; clear Hcases.
    { split; [|done]. split; [|done]. intros _. by eapply UpdateUser_updates_size. }
    assert (Hsome : ¬ (Users.Username req = "" ∧ Users.Email req = "" ∧
                       Users.FullName req = "" ∧ Users.IsActive req = None)).
    { intros (Hn & Hm & Hf & Ha). apply Hsz.
      unfold Users.UpdateUser_updates in Hu. rewrite Hn, Hm, Hf, Ha in Hu.
      cbn in Hu. by injection Hu as <-. }
    destruct (Exec db _ _) as [[rows|err] db']; cbn [fst snd].
    + destruct (rows =? 0); (split; [|done]); by split.
    + split; [|done]. by split.
  - rewrite Hcases. clear Hcases. cbn [fst snd]. split; [|done].
    assert (Hsome : ¬ (Users.Username req = "" ∧ Users.Email req = "" ∧
                       Users.FullName req = "" ∧ Users.IsActive req = None)).
    { intros (Hn & Hm & Hf & Ha).
      unfold Users.UpdateUser_updates in Hu. rewrite Hn, Hm, Hf, Ha in Hu. done. }
    apply UpdateUser_updates_Err in Hu
      as [[_ [(c & _ & ->)|[_ ->]]]|(_ & _ & [(c & _ & ->)|[_ ->]])]; by split.
Qed.

(** X17. [UserHandler.UpdateUser] answers 404 exactly when the UPDATE
    statement was executed and matched no row: no failure of the
    database or of a uniqueness check is mistaken for a missing user. *)
Theorem UpdateUser_404_iff_no_row (idParam : string) (id : Z)
    (req : Users.UpdateUserRequest) (now : Z) (db : DB) :
  Atoi idParam = Ok id →
  status (UserHandler_UpdateUser idParam (Ok req) now db).1 = StatusNotFound ↔
  ∃ updates,
    Users.UpdateUser_updates DB CheckUsernameExists CheckEmailExists id req db = Ok updates ∧
    size updates ≠ 0%nat ∧
    (Exec db (Users.UpdateUser_statement id (range updates) now).1
             (Users.UpdateUser_statement id (range updates) now).2).1 = Ok 0.
Proof.
  intros Hid. unfold UserHandler_UpdateUser. rewrite Hid.
  pose proof (UserService_UpdateUser_cases id req now db) as Hcases.
  destruct (Users.UpdateUser_updates _ _ _ id req db) as [updates|e] eqn:Hu.
  - case_decide as Hsz; rewrite Hcases; clear Hcases.
    { split; [done|]. intros (u & [= <-] & Hne & _). done. }
    destruct (Exec db _ _) as [[rows|err] db'] eqn:HE; cbn [fst snd].
    + destruct (Z.eqb_spec rows 0) as [->|Hrows].
      * split; [|done]. intros _. exists updates. by rewrite HE.
      * split; [done|]. intros (u & [= <-] & _ & Hex). rewrite HE in Hex.
        by injection Hex.
    + split; [done|]. intros (u & [= <-] & _ & Hex). by rewrite HE in Hex.
  - rewrite Hcases. clear Hcases. split; [|by intros (u & ? & _)].
    apply UpdateUser_updates_Err in Hu
      as [[_ [(c & _ & ->)|[_ ->]]]|(_ & _ & [(c & _ & ->)|[_ ->]])]; by cbn.
Qed.

(** X18. [UserHandler.UpdateUser] answers 409 exactly when a name or
    an address the request asks for is taken by another user, the user
    name being looked at first; in that case nothing is executed and
    the database is as it was. *)
Theorem UpdateUser_409_iff_taken (idParam : string) (id : Z)
    (req : Users.UpdateUserRequest) (now : Z) (db : DB) :
  Atoi idParam = Ok id →
  (status (UserHandler_UpdateUser idParam (Ok req) now db).1 = StatusConflict ↔
   (Users.Username req ≠ "" ∧ CheckUsernameExists db (Users.Username req) id = Ok true) ∨
   ((Users.Username req = "" ∨ CheckUsernameExists db (Users.Username req) id = Ok false) ∧
    Users.Email req ≠ "" ∧ CheckEmailExists db (Users.Email req) id = Ok true)) ∧
  (status (UserHandler_UpdateUser idParam (Ok req) now db).1 = StatusConflict →
   (UserHandler_UpdateUser idParam (Ok req) now db).2 = db).
Proof.
  intros Hid. unfold UserHandler_UpdateUser. rewrite Hid.
  pose proof (UserService_UpdateUser_cases id req now db) as Hcases.
  destruct (Users.UpdateUser_updates _ _ _ id req db) as [updates|e] eqn:Hu.
  - assert (Hfree : ¬ ((Users.Username req ≠ "" ∧
                       CheckUsernameExists db (Users.Username req) id = Ok true) ∨
                      ((Users.Username req = "" ∨
                        CheckUsernameExists db (Users.Username req) id = Ok false) ∧
                       Users.Email req ≠ "" ∧
                       CheckEmailExists db (Users.Email req) id = Ok true))).
    { destruct (UpdateUser_updates_Ok _ _ _ _ Hu) as [Hn Hm].
      intros [[Hne Ht]|(_ & Hne & Ht)].
      - destruct Hn; congruence.
      - destruct Hm; congruence. }
    case_decide as Hsz; rewrite Hcases; clear Hcases.
    { split; [|done]. by split. }
    destruct (Exec db _ _) as [[rows|err] db']; cbn [fst snd].
    + destruct (rows =? 0); (split; [|done]); by split.
    + split; [|done]. by split.
  - rewrite Hcases. clear Hcases. cbn [fst snd]. split; [|done].
    apply UpdateUser_updates_Err in Hu
      as [[Hne [(c & Hc & ->)|[Hc ->]]]|(Hfree & Hne & [(c & Hc & ->)|[Hc ->]])]; cbn.
    + split; [done|]. intros [[_ Ht]|([?|Ht] & _)]; [congruence|done|congruence].
    + split; [|done]. intros _. by left.
    + split; [done|]. intros [[? Ht]|(_ & _ & Ht)]; [|congruence].
      destruct Hfree; congruence.
    + split; [|done]. intros _. by right.
Qed.

(** *** Creation *)

(** X19. [UserHandler.CreateUser] answers 409 exactly when the address
    or the user name is taken, the address being looked at first; in
    that case the password is not hashed into a row: nothing is
    inserted and the database is as it was. *)
Theorem CreateUser_409_iff_taken (req : CreateUserRequest) (now : Z) (db : DB) :
  (status (UserHandler_CreateUser (Ok req) now db).1 = StatusConflict ↔
   CheckEmailExists db (req_Email req) 0 = Ok true ∨
   (CheckEmailExists db (req_Email req) 0 = Ok false ∧
    CheckUsernameExists db (req_Username req) 0 = Ok true)) ∧
  (status (UserHandler_CreateUser (Ok req) now db).1 = StatusConflict →
   (UserHandler_CreateUser (Ok req) now db).2 = db).
Proof.
  unfold UserHandler_CreateUser, UserService_CreateUser.
  destruct (CheckEmailExists db (req_Email req) 0) as [[]|c]; cbn.
  - split; [|done]. split; [by left|done].
  - destruct (CheckUsernameExists db (req_Username req) 0) as [[]|c]; cbn.
    + split; [|done]. split; [by right|done].
    + destruct (GenerateFromPassword (req_Password req)) as [h|c]; cbn.
      * unfold UserRepository_CreateUser.
        destruct (QueryRow db _ _) as [[newid|c] db']; cbn;
          (split; [|done]); (split; [done|]); by intros [?|[_ ?]].
      * split; [|done]. split; [done|]. by intros [?|[_ ?]].
    + split; [|done]. split; [done|]. by intros [?|[_ ?]].
  - split; [|done]. split; [done|]. by intros [?|[? _]].
Qed.

(** *** Listing *)

Lemma GetUsers_params_eq (pageStr limitStr : string) :
  GetUsers_params pageStr limitStr = Paging.GetPaginationParams Atoi pageStr limitStr.
Proof. done. Qed.

(** X20. [UserHandler.GetUsers] never divides by zero, whatever the
    query string and the database answer.  The page it reports is at
    least 1, the limit between 1 and 100, the rows are asked for with
    that limit, and for a row count that is not negative the page count
    is the ceiling of count over limit. *)
Theorem GetUsers_meta (pageStr limitStr : string) (db : DB) :
  ∃ resp,
    UserHandler_GetUsers pageStr limitStr db = Some resp ∧
    (status resp = StatusOK →
     ∃ m users,
       meta resp = Some m ∧ data resp = Some (DUsers users) ∧
       1 ≤ Paging.Page m ∧ 1 ≤ Paging.Limit m ≤ 100 ∧
       UserRepository_GetAllUsers (Paging.Limit m)
         (Paging.CalculateOffset (Paging.Page m) (Paging.Limit m)) db =
         Ok (users, Paging.Total m) ∧
       (0 ≤ Paging.Total m ≤ Paging.max_int - 100 →
        Paging.Total m ≤ Paging.TotalPages m * Paging.Limit m
          < Paging.Total m + Paging.Limit m)).
Proof.
  unfold UserHandler_GetUsers. rewrite GetUsers_params_eq.
  pose proof (Paging.GetPaginationParams_range Atoi pageStr limitStr) as [Hp Hl].
  destruct (Paging.GetPaginationParams Atoi pageStr limitStr) as [page limit].
  cbn [fst snd] in *. unfold UserService_GetAllUsers.
  fold (Paging.CalculateOffset page limit).
  destruct (UserRepository_GetAllUsers limit _ db) as [[users total]|err] eqn:Hrepo.
  - unfold Paging.int_div. rewrite (proj2 (Z.eqb_neq _ _)) by lia.
    eexists. split; [done|]. intros _. eexists _, _.
    split; [reflexivity|]. split; [reflexivity|].
    cbn [Paging.Page Paging.Limit Paging.Total Paging.TotalPages].
    split_and!; [lia|lia|lia|done|].
    intros Ht.
    destruct (Paging.ceiling_division total limit) as (tp & Hdiv & Htp);
      [unfold Paging.max_int in *; lia..|].
    unfold Paging.int_div in Hdiv. rewrite (proj2 (Z.eqb_neq _ _)) in Hdiv by lia.
    injection Hdiv as ->. lia.
  - eexists. split; [done|]. by cbn.
Qed.

(** *** Lookup and removal *)

(** [UserHandler.DeleteUser] answers 404 exactly when the DELETE
    statement ran and matched no row, 200 exactly when it removed a
    row, and 500 exactly when the database failed. *)
Lemma DeleteUser_status (idParam : string) (id : Z) (db : DB) :
  Atoi idParam = Ok id →
  let out := Exec db "DELETE FROM users WHERE id = $1" [Users.AInt id] in
  (UserHandler_DeleteUser idParam db).2 = out.2 ∧
  (status (UserHandler_DeleteUser idParam db).1 = StatusNotFound ↔ out.1 = Ok 0) ∧
  (status (UserHandler_DeleteUser idParam db).1 = StatusOK ↔
     ∃ rows, out.1 = Ok rows ∧ rows ≠ 0) ∧
  (status (UserHandler_DeleteUser idParam db).1 = StatusInternalServerError ↔
     ∃ err, out.1 = Err err).
Proof.
  intros Hid. unfold UserHandler_DeleteUser, UserRepository_DeleteUser. rewrite Hid.
  destruct (Exec db _ _) as [[rows|err] db']; cbn.
  - destruct (Z.eqb_spec rows 0) as [->|Hrows]; cbn.
    + split_and!; [done|done|..]; (split; [done|]).
      * by intros (rows & [= <-] & ?).
      * by intros [? ?].
    + split_and!; [done|..]; split; try done.
      * by intros [= ?].
      * intros _. by exists rows.
      * by intros [? ?].
  - split_and!; [done|..]; split; try done.
    + by intros (rows & ? & _).
    + intros _. by eexists.
Qed.

End Service.

(** *** On a concrete database *)

(** A database that only counts the statements it was given, where
    the user name ann is taken and no statement matches a row. *)
Definition demo_Atoi (s : string) : Res Z :=
  match undec s with
  | Some z => Ok z
  | None => Err (New "invalid syntax")
  end.

Definition ann_taken (db : nat) (name : string) (excludeID : Z) : Res bool :=
  Ok (String.eqb name "ann").

Definition none_taken (db : nat) (name : string) (excludeID : Z) : Res bool := Ok false.

Definition no_row (db : nat) (query : string) (args : list Users.Arg) : Res Z * nat :=
  (Ok 0, S db).

(** The request that names no field. *)
Definition empty_request : Users.UpdateUserRequest :=
  {| Users.Username := ""; Users.Email := ""; Users.FullName := "";
     Users.IsActive := None |}.

Lemma UpdateUser_no_fields_iff_witness :
  ((UserHandler_UpdateUser nat ann_taken none_taken no_row map_to_list demo_Atoi "7"
      (Ok empty_request) 1000 0%nat).1 =
     failure StatusInternalServerError "Failed to update user" "no fields to update" ↔
   Users.Username empty_request = "" ∧ Users.Email empty_request = "" ∧
   Users.FullName empty_request = "" ∧ Users.IsActive empty_request = None) ∧
  ((UserHandler_UpdateUser nat ann_taken none_taken no_row map_to_list demo_Atoi "7"
      (Ok empty_request) 1000 0%nat).1 =
     failure StatusInternalServerError "Failed to update user" "no fields to update" →
   (UserHandler_UpdateUser nat ann_taken none_taken no_row map_to_list demo_Atoi "7"
      (Ok empty_request) 1000 0%nat).2 = 0%nat).
Proof.
  apply (UpdateUser_no_fields_iff nat ann_taken none_taken no_row map_to_list demo_Atoi
           "7" 7 empty_request 1000 0%nat).
  reflexivity.
Defined.

Lemma UpdateUser_404_iff_no_row_witness :
  status (UserHandler_UpdateUser nat ann_taken none_taken no_row map_to_list demo_Atoi "7"
            (Ok Users.ann_request) 1000 0%nat).1 = StatusNotFound ↔
  ∃ updates,
    Users.UpdateUser_updates nat ann_taken none_taken 7 Users.ann_request 0%nat
      = Ok updates ∧
    size updates ≠ 0%nat ∧
    (no_row 0%nat (Users.UpdateUser_statement 7 (map_to_list updates) 1000).1
                  (Users.UpdateUser_statement 7 (map_to_list updates) 1000).2).1 = Ok 0.
Proof.
  apply (UpdateUser_404_iff_no_row nat ann_taken none_taken no_row map_to_list demo_Atoi
           "7" 7 Users.ann_request 1000 0%nat).
  reflexivity.
Defined.

(** A request for the user name that is taken. *)
Definition ann_rename : Users.UpdateUserRequest :=
  {| Users.Username := "ann"; Users.Email := ""; Users.FullName := "Ann";
     Users.IsActive := None |}.

Lemma UpdateUser_409_iff_taken_witness :
  (status (UserHandler_UpdateUser nat ann_taken none_taken no_row map_to_list demo_Atoi "7"
             (Ok ann_rename) 1000 0%nat).1 = StatusConflict ↔
   (Users.Username ann_rename ≠ "" ∧
    ann_taken 0%nat (Users.Username ann_rename) 7 = Ok true) ∨
   ((Users.Username ann_rename = "" ∨
     ann_taken 0%nat (Users.Username ann_rename) 7 = Ok false) ∧
    Users.Email ann_rename ≠ "" ∧
    none_taken 0%nat (Users.Email ann_rename) 7 = Ok true)) ∧
  (status (UserHandler_UpdateUser nat ann_taken none_taken no_row map_to_list demo_Atoi "7"
             (Ok ann_rename) 1000 0%nat).1 = StatusConflict →
   (UserHandler_UpdateUser nat ann_taken none_taken no_row map_to_list demo_Atoi "7"
      (Ok ann_rename) 1000 0%nat).2 = 0%nat).
Proof.
  apply (UpdateUser_409_iff_taken nat ann_taken none_taken no_row map_to_list demo_Atoi
           "7" 7 ann_rename 1000 0%nat).
  reflexivity.
Defined.

(** The taken name is answered 409 and nothing is executed; the free
    one reaches the database. *)
Lemma UpdateUser_on_demo_database :
  UserHandler_UpdateUser nat ann_taken none_taken no_row map_to_list demo_Atoi "7"
    (Ok ann_rename) 1000 0%nat =
    (failure StatusConflict "Failed to update user" "username already exists", 0%nat) ∧
  UserHandler_UpdateUser nat ann_taken none_taken no_row map_to_list demo_Atoi "7"
    (Ok Users.ann_request) 1000 0%nat =
    (failure StatusNotFound "Failed to update user" "user not found", 1%nat).
Proof. split; by vm_compute. Qed.

Lemma DeleteUser_status_witness :
  let out := no_row 0%nat "DELETE FROM users WHERE id = $1" [Users.AInt 7] in
  (UserHandler_DeleteUser nat no_row demo_Atoi "7" 0%nat).2 = out.2 ∧
  (status (UserHandler_DeleteUser nat no_row demo_Atoi "7" 0%nat).1 = StatusNotFound ↔
     out.1 = Ok 0) ∧
  (status (UserHandler_DeleteUser nat no_row demo_Atoi "7" 0%nat).1 = StatusOK ↔
     ∃ rows, out.1 = Ok rows ∧ rows ≠ 0) ∧
  (status (UserHandler_DeleteUser nat no_row demo_Atoi "7" 0%nat).1
     = StatusInternalServerError ↔ ∃ err, out.1 = Err err).
Proof.
  apply (DeleteUser_status nat no_row demo_Atoi "7" 7 0%nat). reflexivity.
Defined.

End Accounts.

(** ** The string joiner ([joinStrings], in package main and in
    [response.go]) *)

Module Joining.

Lemma append_assoc (a b c : string) : (a +:+ b) +:+ c = a +:+ b +:+ c.
Proof.
  induction a as [|x a IH]; [done|].
  change (String x ((a +:+ b) +:+ c) = String x (a +:+ b +:+ c)). by rewrite IH.
Qed.

Lemma foldl_join_app (separator a b : string) (rest : list string) :
  foldl (λ result s, result +:+ separator +:+ s) (a +:+ b) rest =
  a +:+ foldl (λ result s, result +:+ separator +:+ s) b rest.
Proof.
  revert b. induction rest as [|s rest IH]; intros b; cbn [foldl]; [done|].
  by rewrite <- IH, append_assoc.
Qed.

Lemma joinStrings_concat_aux (strings : list string) (separator : string) :
  Users.joinStrings strings separator = String.concat separator strings.
Proof.
  destruct strings as [|s0 rest]; [done|]. cbn [Users.joinStrings].
  revert s0. induction rest as [|s1 rest IH]; intros s0; [done|].
  cbn [foldl String.concat]. rewrite foldl_join_app, foldl_join_app, IH. done.
Qed.

(** The loop of [joinStrings] computes the join of the standard
    library: the parts in order with the separator between neighbours,
    none before the first and none after the last. *)
Lemma joinStrings_is_concat (strings : list string) (separator : string) :
  Users.joinStrings strings separator = String.concat separator strings.
Proof. apply joinStrings_concat_aux. Qed.

(** X21. Splitting undoes joining: a non-empty list of parts none of
    which holds the separator character is what [strings.Split] makes
    of their join. *)
Theorem Split_joinStrings (sep : ascii) (parts : list string) :
  parts ≠ [] →
  Forall (λ part, sep ∉ list_ascii_of_string part) parts →
  JWT.Split sep (Users.joinStrings parts (String sep "")) = parts.
Proof.
  intros Hne Hparts. rewrite joinStrings_concat_aux.
  destruct parts as [|p0 rest]; [done|]. clear Hne.
  revert p0 Hparts. induction rest as [|p1 rest IH]; intros p0 Hparts.
  - cbn. apply JWT.Split_no_sep. by inversion Hparts.
  - inversion Hparts as [|? ? Hp0 Hrest]; subst.
    change (String.concat (String sep "") (p0 :: p1 :: rest))
      with (p0 +:+ String sep (String.concat (String sep "") (p1 :: rest))).
    rewrite JWT.Split_app_sep by done. by rewrite IH.
Qed.

Lemma Split_joinStrings_witness :
  JWT.Split "," (Users.joinStrings ["a"; ""; "bc"] ",") = ["a"; ""; "bc"].
Proof.
  apply (Split_joinStrings "," ["a"; ""; "bc"]).
  - discriminate.
  - repeat constructor; cbn; intros H; not_in_list H.
Defined.

End Joining.

(** ** The request middleware ([middleware.go]) *)

Module Pipeline.

(** *** The request context *)

(** A value of a [gin.H] handed to [c.JSON]. *)
Inductive Field :=
  | FStr (s : string)
  | FTime (t : Z).

(** A value stored under [c.Set]: a string, or something a type
    assertion to [string] fails on. *)
Inductive Any :=
  | AStr (s : string)
  | AOther.

(** [*http.Request], as far as the middleware looks at it. *)
Record http_Request := {
  Method : string;
  URL_Path : string;
  Header : gmap string string;
  ContentLength : Z
}.

(** Modelled from the spec: [*gin.Context] (package gin, not part of
    the repository).  Section 4.5: a shared mutable request context and
    a terminal (status, body) response that short-circuits the remaining
    stages.  [Written] is the response once a stage has produced one,
    [Aborted] whether the remaining stages are cut off; the clock is the
    one the stages read with [time.Now()]. *)
Record Context := {
  Request : http_Request;
  Writer_Header : gmap string string;
  Keys : gmap string Any;
  Written : option (Z * list (string * Field));
  Aborted : bool;
  clock : JWT.Clock
}.

(** [c.GetHeader(key)]: the empty string for a header that is not there. *)
Definition GetHeader (c : Context) (key : string) : string :=
  default "" (Header (Request c) !! key).

(** [c.Header(key, value)]: sets a response header, removes it when the
    value is empty. *)
Definition c_Header (c : Context) (key value : string) : Context :=
  {| Request := Request c;
     Writer_Header :=
       if decide (value = "") then delete key (Writer_Header c)
       else <[key := value]> (Writer_Header c);
     Keys := Keys c; Written := Written c; Aborted := Aborted c; clock := clock c |}.

(** [c.Set(key, value)] and [c.Get(key)] *)
Definition c_Set (c : Context) (key : string) (value : Any) : Context :=
  {| Request := Request c; Writer_Header := Writer_Header c;
     Keys := <[key := value]> (Keys c);
     Written := Written c; Aborted := Aborted c; clock := clock c |}.

Definition c_Get (c : Context) (key : string) : option Any := Keys c !! key.

(** [c.JSON(code, obj)], [c.Abort()] and [c.AbortWithStatus(code)] *)
Definition JSON (c : Context) (code : Z) (obj : list (string * Field)) : Context :=
  {| Request := Request c; Writer_Header := Writer_Header c; Keys := Keys c;
     Written := Some (code, obj); Aborted := Aborted c; clock := clock c |}.

Definition Abort (c : Context) : Context :=
  {| Request := Request c; Writer_Header := Writer_Header c; Keys := Keys c;
     Written := Written c; Aborted := true; clock := clock c |}.

Definition AbortWithStatus (c : Context) (code : Z) : Context := Abort (JSON c code []).

Definition with_clock (c : Context) (clk : JWT.Clock) : Context :=
  {| Request := Request c; Writer_Header := Writer_Header c; Keys := Keys c;
     Written := Written c; Aborted := Aborted c; clock := clk |}.

(** A [gin.HandlerFunc] that ends in [c.Next()] or in an abort: a
    function of the rest of the chain. *)
Definition HandlerFunc : Type := (Context → Context) → Context → Context.

(** The stages mounted in order in front of a final handler. *)
Definition chain (stages : list HandlerFunc) (final : Context → Context)
  : Context → Context :=
  foldr (λ stage next, stage next) final stages.

(** *** strings.TrimPrefix *)

Fixpoint strip (prefix s : string) : option string :=
  match prefix, s with
  | EmptyString, _ => Some s
  | String a prefix', String b s' => if decide (a = b) then strip prefix' s' else None
  | String _ _, EmptyString => None
  end.

(** [strings.TrimPrefix(s, prefix)] *)
Definition TrimPrefix (s prefix : string) : string := default s (strip prefix s).

(** *** The stages *)

Definition StatusOK : Z := 200.
Definition StatusNoContent : Z := 204.
Definition StatusUnauthorized : Z := 401.
Definition StatusRequestEntityTooLarge : Z := 413.

(** [func CORS() gin.HandlerFunc] *)
Definition CORS : HandlerFunc := λ next c,
  let c := c_Header c "Access-Control-Allow-Origin" "*" in
  let c := c_Header c "Access-Control-Allow-Methods" "GET, POST, PUT, DELETE, OPTIONS" in
  let c := c_Header c "Access-Control-Allow-Headers"
             "Origin, Content-Type, Content-Length, Accept-Encoding, X-CSRF-Token, Authorization" in
  let c := c_Header c "Access-Control-Expose-Headers" "Content-Length" in
  let c := c_Header c "Access-Control-Allow-Credentials" "true" in
  if decide (Method (Request c) = "OPTIONS") then AbortWithStatus c StatusNoContent
  else next c.

(** [func generateRequestID() string]: two readings of the clock, the
    first in nanoseconds, the second in seconds. *)
Definition generateRequestID (clk : JWT.Clock) : string * JWT.Clock :=
  let '(t1, clk) := JWT.Now clk in
  let '(t2, clk) := JWT.Now clk in
  (dec t1 +:+ "-" +:+ dec (t2 / second), clk).

(** [func RequestID() gin.HandlerFunc] *)
Definition RequestID : HandlerFunc := λ next c,
  let requestID := GetHeader c "X-Request-ID" in
  let '(requestID, c) :=
    if decide (requestID = "") then
      let '(generated, clk) := generateRequestID (clock c) in
      (generated, with_clock c clk)
    else (requestID, c) in
  let c := c_Header c "X-Request-ID" requestID in
  let c := c_Set c "request_id" (AStr requestID) in
  next c.

(** [func HealthCheck() gin.HandlerFunc] *)
Definition HealthCheck : HandlerFunc := λ next c,
  if decide (URL_Path (Request c) = "/health") then
    let '(now, clk) := JWT.Now (clock c) in
    Abort (JSON (with_clock c clk) StatusOK
             [("status", FStr "healthy"); ("timestamp", FTime now);
              ("service", FStr "microservice")])
  else next c.

(** [func SecurityHeaders() gin.HandlerFunc] *)
Definition SecurityHeaders : HandlerFunc := λ next c,
  let c := c_Header c "X-Content-Type-Options" "nosniff" in
  let c := c_Header c "X-Frame-Options" "DENY" in
  let c := c_Header c "X-XSS-Protection" "1; mode=block" in
  let c := c_Header c "Strict-Transport-Security" "max-age=31536000; includeSubDomains" in
  let c := c_Header c "Content-Security-Policy" "default-src 'self'" in
  next c.

(** [func RequestSize(maxSize int64) gin.HandlerFunc] *)
Definition RequestSize (maxSize : Z) : HandlerFunc := λ next c,
  if maxSize <? ContentLength (Request c) then
    Abort (JSON c StatusRequestEntityTooLarge
             [("error", FStr "Request too large");
              ("message", FStr ("Request body must be smaller than " +:+ dec maxSize
                                +:+ " bytes"))])
  else next c.

(** [func GetUserFromContext(c *gin.Context)
    (userID string, username string, email string, exists bool)] *)
Definition GetUserFromContext (c : Context) : string * string * string * bool :=
  match c_Get c "user_id", c_Get c "username", c_Get c "email" with
  | Some userIDInterface, Some usernameInterface, Some emailInterface =>
      match userIDInterface, usernameInterface, emailInterface with
      | AStr userID, AStr username, AStr email => (userID, username, email, true)
      | _, _, _ => ("", "", "", false)
      end
  | _, _, _ => ("", "", "", false)
  end.

Section Auth.
Context `{codec : JWT.TokenCodec}.

(** The key function [JWTAuth] passes to [jwt.Parse]. *)
Definition auth_keyFunc (secretKey : string) (token : JWT.Token) : Res string :=
  match JWT.Method token with
  | JWT.SigningMethodHMAC _ => Ok secretKey
  | JWT.SigningMethodOther _ =>
      Err (New ("unexpected signing method: " +:+ JWT.Header_alg token))
  end.

(** [func JWTAuth(secretKey string) gin.HandlerFunc].  [jwt.Parse] is
    [JWT.ParseWithClaims] reading the payload with the same codec. *)
Definition JWTAuth (secretKey : string) : HandlerFunc := λ next c,
  let authHeader := GetHeader c "Authorization" in
  if decide (authHeader = "") then
    Abort (JSON c StatusUnauthorized
             [("error", FStr "Authorization header required");
              ("message", FStr "Please provide Authorization header with Bearer token")])
  else
    let tokenString := TrimPrefix authHeader "Bearer " in
    if decide (tokenString = authHeader) then
      Abort (JSON c StatusUnauthorized
               [("error", FStr "Invalid authorization format");
                ("message", FStr "Authorization header must be in format: Bearer <token>")])
    else
      let '(parsed, clk) :=
        JWT.ParseWithClaims tokenString (auth_keyFunc secretKey) (clock c) in
      let c := with_clock c clk in
      let invalid :=
        Abort (JSON c StatusUnauthorized
                 [("error", FStr "Invalid token");
                  ("message", FStr "Token is invalid or expired")]) in
      match parsed with
      | Err _ => invalid
      | Ok token =>
          if negb (JWT.Valid token) then invalid
          else
            let claims := JWT.Claims token in
            let c := c_Set c "user_id" (AStr (JWT.UserID claims)) in
            let c := c_Set c "username" (AStr (JWT.Username claims)) in
            let c := c_Set c "email" (AStr (JWT.Email claims)) in
            next c
      end.

(** A request [JWTAuth] lets through: a header of the form
    [Bearer <token>] whose token the library accepts under the key. *)
Definition authenticated (secretKey : string) (c : Context) : Prop :=
  ∃ tokenString token clk,
    GetHeader c "Authorization" = "Bearer " +:+ tokenString ∧
    JWT.ParseWithClaims tokenString (auth_keyFunc secretKey) (clock c) = (Ok token, clk) ∧
    JWT.Valid token = true.

End Auth.

(** *** The abort/continue discipline *)

(** A context no stage has answered or aborted yet. *)
Definition pending (c : Context) : Prop := Aborted c = false ∧ Written c = None.

(** What a stage does with a pending request is one of two things.
    Either it hands one context, still pending, to the rest of the
    chain and returns what the rest returns; or it answers and aborts,
    and the rest of the chain is not run. *)
Definition abort_or_continue (stage : HandlerFunc) : Prop :=
  ∀ c, pending c →
    (∃ c', (∀ next, stage next c = next c') ∧ pending c') ∨
    (∃ out, (∀ next, stage next c = out) ∧ Aborted out = true ∧ is_Some (Written out)).

(** *** Properties *)

Lemma length_append (a b : string) :
  String.length (a +:+ b) = (String.length a + String.length b)%nat.
Proof.
  induction a as [|x a IH]; [done|].
  change (S (String.length (a +:+ b)) = S (String.length a + String.length b)).
  by rewrite IH.
Qed.

Lemma strip_Some (prefix s t : string) : strip prefix s = Some t ↔ s = prefix +:+ t.
Proof.
  revert s. induction prefix as [|a prefix IH]; intros s.
  - cbn. split; [by intros [= ->]|by intros ->].
  - destruct s as [|b s]; cbn [strip].
    + split; [done|]. intros Heq. discriminate Heq.
    + case_decide as Hab.
      * subst b. rewrite IH. split; [by intros ->|].
        intros Heq. by injection Heq.
      * split; [done|]. intros Heq. injection Heq as ? _. done.
Qed.

(** [strings.TrimPrefix] gives its argument back exactly when the
    argument does not start with the (non-empty) prefix. *)
Lemma TrimPrefix_same (s prefix : string) :
  prefix ≠ "" → (TrimPrefix s prefix = s ↔ ∀ t, s ≠ prefix +:+ t).
Proof.
  intros Hne. unfold TrimPrefix.
  destruct (strip prefix s) as [t|] eqn:Hs; cbn.
  - apply strip_Some in Hs. split.
    + intros ->. exfalso. apply (f_equal String.length) in Hs.
      rewrite length_append in Hs. destruct prefix; [done|]. cbn in Hs. lia.
    + intros Hno. by destruct (Hno t).
  - split; [|done]. intros _ t Heq. apply strip_Some in Heq. congruence.
Qed.

Lemma TrimPrefix_app (prefix t : string) : TrimPrefix (prefix +:+ t) prefix = t.
Proof. unfold TrimPrefix. by rewrite (proj2 (strip_Some prefix _ t) eq_refl). Qed.

Lemma generateRequestID_not_empty (clk : JWT.Clock) : (generateRequestID clk).1 ≠ "".
Proof.
  unfold generateRequestID; cbn. intros Heq. apply (f_equal String.length) in Heq.
  rewrite !length_append in Heq. cbn [String.length] in Heq. lia.
Qed.

(** What [JWTAuth] stores is what [GetUserFromContext] reads. *)
Lemma GetUserFromContext_Set (c : Context) (userID username email : string) :
  GetUserFromContext
    (c_Set (c_Set (c_Set c "user_id" (AStr userID)) "username" (AStr username))
       "email" (AStr email)) = (userID, username, email, true).
Proof.
  unfold GetUserFromContext, c_Get, c_Set; cbn [Keys].
  rewrite (lookup_insert_ne _ "email" "user_id") by done.
  rewrite (lookup_insert_ne _ "username" "user_id") by done.
  rewrite (lookup_insert_ne _ "email" "username") by done.
  by rewrite !lookup_insert_eq.
Qed.

Section AuthProperties.
Context `{codec : JWT.TokenCodec}.

Lemma auth_keyFunc_keyFunc (j : JWT.JWTManager) :
  auth_keyFunc (JWT.secretKey j) = JWT.keyFunc j.
Proof. done. Qed.

(** X22. No request gets past [JWTAuth] without a bearer token the
    library accepts under the secret: every other request is answered
    401 and aborted, and the rest of the chain has no part in the
    outcome. *)
Theorem JWTAuth_rejects_unauthenticated (secretKey : string) (c : Context) :
  ¬ authenticated secretKey c →
  ∃ out,
    (∀ next, JWTAuth secretKey next c = out) ∧
    Aborted out = true ∧
    (fst <$> Written out) = Some StatusUnauthorized ∧
    Keys out = Keys c.
Proof.
  intros Hno. unfold JWTAuth.
  case_decide as Hempty; [by eexists|].
  case_decide as Htrim; [by eexists|].
  destruct (JWT.ParseWithClaims _ _ _) as [[token|e] clk] eqn:Hparse; [|by eexists].
  destruct (JWT.Valid token) eqn:Hvalid; cbn [negb]; [|by eexists].
  exfalso. apply Hno.
  exists (TrimPrefix (GetHeader c "Authorization") "Bearer "), token, clk.
  split_and!; [|done..].
  unfold TrimPrefix in *.
  destruct (strip "Bearer " (GetHeader c "Authorization")) as [t|] eqn:Hs; [|done].
  by apply strip_Some in Hs.
Qed.

(** X23. Issue, then authenticate: a request that carries a token from
    [GenerateToken] as its bearer token, before the token expires,
    passes [JWTAuth] under the same secret, and [GetUserFromContext]
    reads the user id, user name and e-mail address the token was issued
    for from the context the rest of the chain receives. *)
Theorem JWTAuth_accepts_issued_token (j : JWT.JWTManager)
    (userID username email role : string) (expiration : Z) (clk : JWT.Clock) (n : nat)
    (tok : string) (c : Context) :
  JWT.monotone clk →
  (S (S (S (JWT.ticks clk))) ≤ n)%nat →
  JWT.reading clk n < JWT.NewNumericDate (JWT.reading clk (JWT.ticks clk) + expiration) →
  (JWT.GenerateToken j userID username email role expiration clk).1 = Ok tok →
  GetHeader c "Authorization" = "Bearer " +:+ tok →
  clock c = JWT.at_tick clk n →
  ∃ c',
    (∀ next, JWTAuth (JWT.secretKey j) next c = next c') ∧
    GetUserFromContext c' = (userID, username, email, true) ∧
    Written c' = Written c ∧ Aborted c' = Aborted c.
Proof.
  intros Hmono Hn Hexp Htok Hhdr Hclk.
  pose proof (TokenLife.ValidateToken_issued j userID username email role expiration
                clk n tok Hmono Hn Hexp Htok) as Hv.
  unfold JWT.ValidateToken in Hv. rewrite <- auth_keyFunc_keyFunc, <- Hclk in Hv.
  unfold JWTAuth. rewrite Hhdr, TrimPrefix_app.
  case_decide as Hempty; [discriminate Hempty|].
  case_decide as Htrim.
  { exfalso. apply (f_equal String.length) in Htrim.
    rewrite length_append in Htrim. cbn in Htrim. lia. }
  destruct (JWT.ParseWithClaims tok _ (clock c)) as [[token|e] clk1]; [|done].
  destruct (JWT.Valid token); [|done]. cbn [negb] in *.
  injection Hv as Hclaims _. rewrite Hclaims.
  eexists. split; [done|]. by rewrite GetUserFromContext_Set.
Qed.

End AuthProperties.

(** X24. [RequestID] always passes the request on, with one and the
    same non-empty identifier in the response header and in the
    context; an identifier the client sent is kept as it is. *)
Theorem RequestID_consistent (c : Context) :
  ∃ requestID c',
    (∀ next, RequestID next c = next c') ∧
    requestID ≠ "" ∧
    Writer_Header c' !! "X-Request-ID" = Some requestID ∧
    c_Get c' "request_id" = Some (AStr requestID) ∧
    (GetHeader c "X-Request-ID" ≠ "" → requestID = GetHeader c "X-Request-ID") ∧
    Written c' = Written c ∧ Aborted c' = Aborted c.
Proof.
  unfold RequestID. case_decide as Hin.
  - pose proof (generateRequestID_not_empty (clock c)) as Hgen.
    destruct (generateRequestID (clock c)) as [generated clk]; cbn [fst] in Hgen.
    eexists generated, _. split; [done|]. split; [done|].
    unfold c_Header, c_Set, c_Get; cbn. case_decide; [done|].
    rewrite !lookup_insert_eq. by split_and!.
  - eexists (GetHeader c "X-Request-ID"), _. split; [done|]. split; [done|].
    unfold c_Header, c_Set, c_Get; cbn. case_decide; [done|].
    rewrite !lookup_insert_eq. by split_and!.
Qed.

Lemma c_Header_pending (c : Context) (key value : string) :
  pending c → pending (c_Header c key value).
Proof. done. Qed.

(** The two ends of a stage. *)
Ltac answers := right; eexists; split; [done|]; split; [done|by eexists].
Ltac passes_on := left; eexists; split; [done|].

Lemma CORS_discipline : abort_or_continue CORS.
Proof.
  intros c Hc. unfold CORS. case_decide; [answers|passes_on].
  by repeat apply c_Header_pending.
Qed.

Lemma RequestID_discipline : abort_or_continue RequestID.
Proof.
  intros c Hc. unfold RequestID.
  case_decide; [destruct (generateRequestID (clock c)) as [generated clk]|];
    passes_on; by destruct Hc.
Qed.

Lemma HealthCheck_discipline : abort_or_continue HealthCheck.
Proof. intros c Hc. unfold HealthCheck. case_decide; [answers|by passes_on]. Qed.

Lemma SecurityHeaders_discipline : abort_or_continue SecurityHeaders.
Proof. intros c Hc. passes_on. by repeat apply c_Header_pending. Qed.

Lemma RequestSize_discipline (maxSize : Z) : abort_or_continue (RequestSize maxSize).
Proof. intros c Hc. unfold RequestSize. destruct (_ <? _); [answers|by passes_on]. Qed.

Lemma JWTAuth_discipline `{codec : JWT.TokenCodec} (secretKey : string) :
  abort_or_continue (JWTAuth secretKey).
Proof.
  intros c Hc. unfold JWTAuth.
  case_decide; [answers|].
  case_decide; [answers|].
  destruct (JWT.ParseWithClaims _ _ _) as [[token|e] clk]; [|answers].
  destruct (JWT.Valid token); cbn [negb]; [|answers].
  passes_on. by destruct Hc.
Qed.

Lemma chain_discipline (stages : list HandlerFunc) :
  Forall abort_or_continue stages →
  ∀ c, pending c →
    (∃ c', (∀ final, chain stages final c = final c') ∧ pending c') ∨
    (∃ out, (∀ final, chain stages final c = out) ∧
            Aborted out = true ∧ is_Some (Written out)).
Proof.
  induction 1 as [|stage stages Hstage _ IH]; intros c Hc.
  - left. by exists c.
  - destruct (Hstage c Hc) as [(c1 & Hnext & Hc1)|(out & Hout & Ha & Hw)].
    + destruct (IH c1 Hc1) as [(c2 & Hrest & Hc2)|(out & Hrest & Ha & Hw)].
      * left. exists c2. split; [|done]. intros final.
        change (stage (chain stages final) c = final c2). by rewrite Hnext, Hrest.
      * right. exists out. split_and!; [|done..]. intros final.
        change (stage (chain stages final) c = out). by rewrite Hnext, Hrest.
    + right. exists out. split_and!; [|done..]. intros final.
      change (stage (chain stages final) c = out). by rewrite Hout.
Qed.

(** X25. However the stages of [middleware.go] are mounted, a pending
    request meets one of two ends.  Either every stage passes it on and
    the final handler runs once, on a context none of them has answered;
    or one stage answers and aborts, and the final handler is not run at
    all. *)
Theorem pipeline_abort_or_continue `{codec : JWT.TokenCodec} (stages : list HandlerFunc)
    (secretKey : string) (maxSize : Z) (c : Context) :
  stages ⊆ [CORS; RequestID; HealthCheck; SecurityHeaders; RequestSize maxSize;
            JWTAuth secretKey] →
  pending c →
  (∃ c', (∀ final, chain stages final c = final c') ∧ pending c') ∨
  (∃ out, (∀ final, chain stages final c = out) ∧
          Aborted out = true ∧ is_Some (Written out)).
Proof.
  intros Hsub. apply chain_discipline. apply Forall_forall. intros stage Hin.
  apply Hsub in Hin.
  repeat (apply elem_of_cons in Hin as [->|Hin];
          [auto using CORS_discipline, RequestID_discipline, HealthCheck_discipline,
             SecurityHeaders_discipline, RequestSize_discipline, JWTAuth_discipline|]).
  by apply elem_of_nil in Hin.
Qed.

(** *** On concrete requests *)

#[local] Existing Instance JWT.ref_codec.

(** A GET request for /users with the given headers, at tick 5 of the
    clock of [JWT]. *)
Definition demo_request (headers : gmap string string) : Context :=
  {| Request := {| Method := "GET"; URL_Path := "/users"; Header := headers;
                   ContentLength := 0 |};
     Writer_Header := ∅; Keys := ∅; Written := None; Aborted := false;
     clock := JWT.at_tick JWT.tick_clock 5 |}.

Lemma JWTAuth_rejects_unauthenticated_witness :
  ∃ out,
    (∀ next, JWTAuth "s3cret" next (demo_request ∅) = out) ∧
    Aborted out = true ∧
    (fst <$> Written out) = Some StatusUnauthorized ∧
    Keys out = Keys (demo_request ∅).
Proof.
  apply (JWTAuth_rejects_unauthenticated "s3cret" (demo_request ∅)).
  intros (tokenString & token & clk & Hheader & _). discriminate Hheader.
Defined.

Lemma JWTAuth_accepts_issued_token_witness :
  ∃ c',
    (∀ next, JWTAuth (JWT.secretKey JWT.demo_manager) next
               (demo_request {["Authorization" := "Bearer " +:+ JWT.demo_token]}) = next c') ∧
    GetUserFromContext c' = ("u1", "ann", "ann@example.org", true) ∧
    Written c' = Written (demo_request {["Authorization" := "Bearer " +:+ JWT.demo_token]}) ∧
    Aborted c' = Aborted (demo_request {["Authorization" := "Bearer " +:+ JWT.demo_token]}).
Proof.
  apply (JWTAuth_accepts_issued_token JWT.demo_manager "u1" "ann" "ann@example.org" "admin"
           (10 * second) JWT.tick_clock 5 JWT.demo_token
           (demo_request {["Authorization" := "Bearer " +:+ JWT.demo_token]})).
  - intros i j Hij. cbn. unfold second. lia.
  - cbn. lia.
  - by vm_compute.
  - by vm_compute.
  - by vm_compute.
  - reflexivity.
Defined.

Lemma pipeline_abort_or_continue_witness :
  (∃ c', (∀ final, chain [CORS; RequestID; JWTAuth "s3cret"] final (demo_request ∅)
                   = final c') ∧ pending c') ∨
  (∃ out, (∀ final, chain [CORS; RequestID; JWTAuth "s3cret"] final (demo_request ∅) = out) ∧
          Aborted out = true ∧ is_Some (Written out)).
Proof.
  apply (pipeline_abort_or_continue [CORS; RequestID; JWTAuth "s3cret"] "s3cret" 1024
           (demo_request ∅)).
  - intros stage Hin.
    repeat (apply elem_of_cons in Hin as [->|Hin]; [in_list|]).
    by apply elem_of_nil in Hin.
  - by split.
Defined.

(** The request without credentials is answered by the third stage,
    after the first two have set their headers. *)
Lemma pipeline_on_anonymous_request :
  ∀ final,
    (fst <$> Written (chain [CORS; RequestID; JWTAuth "s3cret"] final (demo_request ∅)))
      = Some StatusUnauthorized ∧
    Writer_Header (chain [CORS; RequestID; JWTAuth "s3cret"] final (demo_request ∅))
      !! "X-Request-ID" = Some "5000000000-6".
Proof. intros final. split; by vm_compute. Qed.

End Pipeline.

(** ** The product service (package main of the basic HTTP service) *)

Module Products.

Section Service.
(** Go's [float64] and the value an integer literal has in it; the
    text [time.Time.Format(time.RFC3339)] gives for an instant. *)
Variable float64 : Type.
Variable float_of_int : Z → float64.
Variable Format_RFC3339 : Z → string.

(** [type Product struct] *)
Record Product := {
  ID : Z;
  Name : string;
  Description : string;
  Price : float64;
  Category : string;
  CreatedAt : string
}.

(** [type ProductService struct] *)
Record ProductService := {
  products : list Product
}.

(** [func NewProductService(logger *logrus.Logger) *ProductService] *)
Definition NewProductService (clk : JWT.Clock) : ProductService * JWT.Clock :=
  let '(t1, clk) := JWT.Now clk in
  let '(t2, clk) := JWT.Now clk in
  let '(t3, clk) := JWT.Now clk in
  let dummyProducts :=
    [ {| ID := 1; Name := "Laptop Gaming";
         Description := "Laptop gaming dengan spesifikasi tinggi";
         Price := float_of_int 15000000; Category := "Electronics";
         CreatedAt := Format_RFC3339 t1 |};
      {| ID := 2; Name := "Smartphone Android";
         Description := "Smartphone Android terbaru dengan kamera canggih";
         Price := float_of_int 8000000; Category := "Electronics";
         CreatedAt := Format_RFC3339 t2 |};
      {| ID := 3; Name := "Sepatu Olahraga";
         Description := "Sepatu olahraga nyaman untuk aktivitas sehari-hari";
         Price := float_of_int 750000; Category := "Fashion";
         CreatedAt := Format_RFC3339 t3 |} ] in
  ({| products := dummyProducts |}, clk).

(** [func (ps *ProductService) GetAllProducts() []Product] *)
Definition GetAllProducts (ps : ProductService) : list Product := products ps.

(** The loop of [GetProductByID]: the first product with the id. *)
Fixpoint find_product (id : Z) (l : list Product) : option Product :=
  match l with
  | [] => None
  | product :: rest => if ID product =? id then Some product else find_product id rest
  end.

(** [func (ps *ProductService) GetProductByID(id int)], which returns
    the product or an error. *)
Definition GetProductByID (id : Z) (ps : ProductService) : Res Product :=
  match find_product id (products ps) with
  | Some product => Ok product
  | None => Err (New ("product with ID " +:+ dec id +:+ " not found"))
  end.

(** The loop of [AddProduct] that looks for the largest id. *)
Definition maxID_of (l : list Product) : Z :=
  foldl (λ maxID p, if maxID <? ID p then ID p else maxID) 0 l.

(** [func (ps *ProductService) AddProduct(product Product) Product] *)
Definition AddProduct (product : Product) (ps : ProductService) (clk : JWT.Clock)
  : Product * ProductService * JWT.Clock :=
  let maxID := maxID_of (products ps) in
  let '(now, clk) := JWT.Now clk in
  let product :=
    {| ID := Paging.int_add maxID 1; Name := Name product;
       Description := Description product; Price := Price product;
       Category := Category product; CreatedAt := Format_RFC3339 now |} in
  (product, {| products := products ps ++ [product] |}, clk).

(** The service after the products of a list have been added in order. *)
Fixpoint add_all (new : list Product) (ps : ProductService) (clk : JWT.Clock)
  : ProductService * JWT.Clock :=
  match new with
  | [] => (ps, clk)
  | product :: rest =>
      let '(_, ps, clk) := AddProduct product ps clk in
      add_all rest ps clk
  end.

(** *** Identifiers *)

Lemma foldl_maxID (l : list Product) (m : Z) :
  m ≤ foldl (λ maxID p, if maxID <? ID p then ID p else maxID) m l ∧
  Forall (λ p, ID p ≤ foldl (λ maxID p, if maxID <? ID p then ID p else maxID) m l) l.
Proof.
  revert m. induction l as [|p l IH]; intros m; cbn [foldl]; [by split; [lia|]|].
  destruct (IH (if m <? ID p then ID p else m)) as [Hm Hl].
  destruct (Z.ltb_spec m (ID p)); (split; [lia|]); constructor; (lia || done).
Qed.

Lemma maxID_of_bounds (l : list Product) (bound : Z) :
  0 ≤ bound → Forall (λ p, ID p ≤ bound) l → 0 ≤ maxID_of l ≤ bound.
Proof.
  intros Hb Hl. split; [apply (foldl_maxID l 0)|].
  unfold maxID_of. assert (H0 : 0 ≤ bound) by done. revert H0. generalize 0.
  induction Hl as [|p l Hp Hl IH]; intros m Hm; cbn [foldl]; [done|].
  apply IH. destruct (m <? ID p); lia.
Qed.

Lemma find_product_app (id : Z) (l1 l2 : list Product) :
  find_product id (l1 ++ l2) =
  match find_product id l1 with
  | Some p => Some p
  | None => find_product id l2
  end.
Proof. induction l1 as [|p l1 IH]; cbn; [done|]. by destruct (ID p =? id). Qed.

Lemma find_product_None (id : Z) (l : list Product) :
  find_product id l = None ↔ id ∉ ID <$> l.
Proof.
  induction l as [|p l IH]; cbn.
  - split; [|done]. intros _. apply not_elem_of_nil.
  - rewrite not_elem_of_cons, <- IH.
    destruct (Z.eqb_spec (ID p) id) as [Heq|Hne].
    + split; [done|]. by intros [? _].
    + split; [by split|by intros [_ ?]].
Qed.

Lemma find_product_Some (id : Z) (l : list Product) (p : Product) :
  find_product id l = Some p → ID p = id ∧ p ∈ l.
Proof.
  induction l as [|q l IH]; cbn; [done|].
  destruct (Z.eqb_spec (ID q) id).
  - intros [= ->]. split; [done|]. apply list_elem_of_here.
  - intros [? ?]%IH. split; [done|]. by apply list_elem_of_further.
Qed.

(** X26. [AddProduct] gives the new product an id that is positive and
    larger than every id in the store, appends it and touches nothing
    else: the new id finds the new product, every other id finds what
    it found before. *)
Theorem AddProduct_fresh_id (product : Product) (ps : ProductService) (clk : JWT.Clock) :
  Forall (λ p, ID p < Paging.max_int) (products ps) →
  let '(added, ps', _) := AddProduct product ps clk in
  0 < ID added ∧
  Forall (λ p, ID p < ID added) (products ps) ∧
  products ps' = products ps ++ [added] ∧
  GetProductByID (ID added) ps' = Ok added ∧
  ∀ id, id ≠ ID added → GetProductByID id ps' = GetProductByID id ps.
Proof.
  intros Hids. unfold AddProduct. cbn [JWT.Now]. cbv zeta.
  set (added := Build_Product _ _ _ _ _ _).
  assert (Hmax : 0 ≤ maxID_of (products ps) ≤ Paging.max_int - 1).
  { apply maxID_of_bounds; [unfold Paging.max_int; lia|].
    eapply Forall_impl; [exact Hids|]. cbn. intros; lia. }
  assert (Hid : ID added = maxID_of (products ps) + 1).
  { cbn. unfold Paging.int_add. apply Paging.wrap_id.
    unfold Paging.min_int, Paging.max_int in *. lia. }
  assert (Hlt : Forall (λ p, ID p < ID added) (products ps)).
  { rewrite Hid. eapply Forall_impl; [apply (foldl_maxID (products ps) 0)|].
    cbn. unfold maxID_of. intros; lia. }
  assert (Hnone : find_product (ID added) (products ps) = None).
  { apply find_product_None. intros Hin.
    apply list_elem_of_fmap in Hin as (p & Hp & Hin).
    rewrite Forall_forall in Hlt. specialize (Hlt p Hin). lia. }
  split_and!; [lia|done|done|..].
  - unfold GetProductByID; cbn [products]. rewrite find_product_app, Hnone. cbn.
    by rewrite Z.eqb_refl.
  - intros id Hne. unfold GetProductByID; cbn [products]. rewrite find_product_app.
    destruct (find_product id (products ps)); [done|]. cbn [find_product].
    by rewrite (proj2 (Z.eqb_neq _ _)) by done.
Qed.

Lemma maxID_of_seq (l : list Product) (n : nat) :
  ID <$> l = Z.of_nat <$> seq 1 n → maxID_of l = Z.of_nat n.
Proof.
  unfold maxID_of. change 0 with (Z.of_nat 0) at 1.
  replace n with (0 + n)%nat at 2 by lia.
  change 1%nat with (S 0). generalize 0%nat.
  revert l. induction n as [|n IH]; intros l m Hl.
  - destruct l; [|done]. cbn. f_equal. lia.
  - destruct l as [|p l]; [done|]. cbn in Hl. injection Hl as Hp Hl. cbn [foldl].
    rewrite Hp. rewrite (proj2 (Z.ltb_lt _ _)) by lia.
    rewrite (IH l (S m) Hl). f_equal. lia.
Qed.

Lemma add_all_ids (new : list Product) (ps : ProductService) (clk : JWT.Clock) (n : nat) :
  ID <$> products ps = Z.of_nat <$> seq 1 n →
  Z.of_nat (n + length new) ≤ Paging.max_int →
  ID <$> products (add_all new ps clk).1 = Z.of_nat <$> seq 1 (n + length new).
Proof.
  revert ps clk n. induction new as [|product new IH]; intros ps clk n Hps Hmax.
  - cbn. by rewrite Nat.add_0_r.
  - cbn [add_all AddProduct JWT.Now length]. cbn [length] in Hmax.
    replace (n + S (length new))%nat with (S n + length new)%nat in * by lia.
    apply IH; [|done]. cbn [products].
    rewrite fmap_app, Hps, seq_S, fmap_app. f_equal. cbn.
    rewrite (maxID_of_seq _ n Hps). unfold Paging.int_add. rewrite Paging.wrap_id.
    + f_equal. lia.
    + unfold Paging.min_int, Paging.max_int in *. lia.
Qed.

(** X27. Identifiers are consecutive: however many products are added to
    a new service, the ids in the store are 1, 2, 3, ... in order of
    arrival, so no two products share an id and [GetProductByID] finds a
    product exactly for the ids from 1 to the number of products. *)
Theorem product_ids_consecutive (new : list Product) (clk : JWT.Clock) :
  Z.of_nat (3 + length new) ≤ Paging.max_int →
  let ps := (add_all new (NewProductService clk).1 (NewProductService clk).2).1 in
  ID <$> products ps = Z.of_nat <$> seq 1 (3 + length new) ∧
  NoDup (ID <$> products ps) ∧
  ∀ id, (∃ p, GetProductByID id ps = Ok p ∧ ID p = id) ↔
        1 ≤ id ≤ Z.of_nat (3 + length new).
Proof.
  intros Hmax ps.
  assert (Hids : ID <$> products ps = Z.of_nat <$> seq 1 (3 + length new)).
  { subst ps. by apply add_all_ids. }
  split; [done|]. split.
  - rewrite Hids. apply NoDup_fmap; [apply _|apply NoDup_seq].
  - intros id. unfold GetProductByID. split.
    + intros (p & Hp & Hid).
      destruct (find_product id (products ps)) as [q|] eqn:Hfind; [|done].
      apply find_product_Some in Hfind as [Hq Hin].
      assert (Hmem : id ∈ ID <$> products ps).
      { rewrite <- Hq. by apply list_elem_of_fmap_2. }
      rewrite Hids in Hmem. apply list_elem_of_fmap in Hmem as (k & -> & Hk).
      apply elem_of_seq in Hk. lia.
    + intros Hrange.
      destruct (find_product id (products ps)) as [q|] eqn:Hfind.
      * apply find_product_Some in Hfind as [Hq _]. by exists q.
      * exfalso. apply find_product_None in Hfind. apply Hfind. rewrite Hids.
        apply list_elem_of_fmap. exists (Z.to_nat id). split; [lia|].
        apply elem_of_seq. lia.
Qed.

End Service.

(** *** On a concrete service *)

Definition demo_service : ProductService Z :=
  (NewProductService Z id (λ t, dec t) JWT.tick_clock).1.

Definition demo_product : Product Z :=
  {| ID := 0; Name := "Mouse"; Description := ""; Price := 100000;
     Category := "Electronics"; CreatedAt := "" |}.

Lemma AddProduct_fresh_id_witness :
  let '(added, ps', _) :=
    AddProduct Z (λ t, dec t) demo_product demo_service (JWT.at_tick JWT.tick_clock 3) in
  0 < ID Z added ∧
  Forall (λ p, ID Z p < ID Z added) (products Z demo_service) ∧
  products Z ps' = products Z demo_service ++ [added] ∧
  GetProductByID Z (ID Z added) ps' = Ok added ∧
  ∀ id, id ≠ ID Z added → GetProductByID Z id ps' = GetProductByID Z id demo_service.
Proof.
  apply (AddProduct_fresh_id Z (λ t, dec t) demo_product demo_service
           (JWT.at_tick JWT.tick_clock 3)).
  repeat constructor.
Defined.

Lemma product_ids_consecutive_witness :
  let ps := (add_all Z (λ t, dec t) [demo_product; demo_product]
               (NewProductService Z id (λ t, dec t) JWT.tick_clock).1
               (NewProductService Z id (λ t, dec t) JWT.tick_clock).2).1 in
  ID Z <$> products Z ps = Z.of_nat <$> seq 1 (3 + 2) ∧
  NoDup (ID Z <$> products Z ps) ∧
  ∀ id, (∃ p, GetProductByID Z id ps = Ok p ∧ ID Z p = id) ↔ 1 ≤ id ≤ Z.of_nat (3 + 2).
Proof.
  apply (product_ids_consecutive Z id (λ t, dec t) [demo_product; demo_product]
           JWT.tick_clock).
  by vm_compute.
Defined.

End Products.

(** ** Transactions and migrations ([postgres.go]) *)

Module Postgres.

(** What the code asks of the connection. *)
Inductive Op :=
  | OBegin
  | OExec (query : string)
  | OCommit
  | ORollback.

(** [type PostgresDB struct]: the connection, as the operations
    performed on it so far, and what has been logged. *)
Record PostgresDB := {
  Connection : list Op;
  logger : list string
}.

(** How a function handed to [Transaction] ends: it returns an error
    (or nil), or it panics. *)
Inductive Outcome :=
  | Return (err : option error)
  | Panic (p : string).

Section Driver.
(** The database behind the connection ([sqlx], [lib/pq] and the
    server): whether an operation fails, given all that was performed
    before it. *)
Variable fails : list Op → Op → option error.

Definition perform (op : Op) (db : PostgresDB) : option error * PostgresDB :=
  (fails (Connection db) op,
   {| Connection := Connection db ++ [op]; logger := logger db |}).

Definition log (msg : string) (db : PostgresDB) : PostgresDB :=
  {| Connection := Connection db; logger := logger db ++ [msg] |}.

(** [func (db *PostgresDB) Transaction], which takes a function of the
    transaction and returns an error.
    The result parameter has no name: [return err] fixes the value that
    is returned before the deferred function runs, so what the deferred
    function assigns to [err] afterwards stays in the local variable. *)
Definition Transaction (fn : PostgresDB → Outcome * PostgresDB) (db : PostgresDB)
  : Outcome * PostgresDB :=
  match perform OBegin db with
  | (Some err, db) =>
      (Return (Some (Wrap "failed to begin transaction: " err)),
       log "Failed to begin transaction" db)
  | (None, db) =>
      match fn db with
      | (Panic p, db) => (Panic p, (perform ORollback db).2)
      | (Return (Some err), db) =>
          match perform ORollback db with
          | (Some rollbackErr, db) =>
              (Return (Some err), log "Failed to rollback transaction" db)
          | (None, db) => (Return (Some err), db)
          end
      | (Return None, db) =>
          match perform OCommit db with
          | (Some commitErr, db) => (Return None, log "Failed to commit transaction" db)
          | (None, db) => (Return None, db)
          end
      end
  end.

(** The function [ExecuteInTransaction] hands to [Transaction]. *)
Fixpoint execute_queries (queries : list string) (db : PostgresDB) : Outcome * PostgresDB :=
  match queries with
  | [] => (Return None, db)
  | query :: rest =>
      match perform (OExec query) db with
      | (Some err, db) =>
          (Return (Some (Wrap "failed to execute query: " err)),
           log "Failed to execute query in transaction" db)
      | (None, db) => execute_queries rest db
      end
  end.

(** [func (db *PostgresDB) ExecuteInTransaction(queries []string) error] *)
Definition ExecuteInTransaction (queries : list string) (db : PostgresDB)
  : Outcome * PostgresDB :=
  Transaction (execute_queries queries) db.

(** The loop of [MigrateSchema], from index [i] on. *)
Fixpoint migrate (i : Z) (migrationQueries : list string) (db : PostgresDB)
  : option error * PostgresDB :=
  match migrationQueries with
  | [] => (None, db)
  | query :: rest =>
      let db := log "Executing migration step" db in
      match perform (OExec query) db with
      | (Some err, db) =>
          (Some (Wrap ("migration step " +:+ dec (i + 1) +:+ " failed: ") err),
           log "Migration failed" db)
      | (None, db) => migrate (i + 1) rest db
      end
  end.

(** [func (db *PostgresDB) MigrateSchema(migrationQueries []string) error] *)
Definition MigrateSchema (migrationQueries : list string) (db : PostgresDB)
  : option error * PostgresDB :=
  let db := log "Starting database migration..." db in
  match migrate 0 migrationQueries db with
  | (Some err, db) => (Some err, db)
  | (None, db) => (None, log "Database migration completed successfully" db)
  end.

(** The queries of a list succeed one after the other from a given
    past. *)
Fixpoint all_succeed (past : list Op) (queries : list string) : Prop :=
  match queries with
  | [] => True
  | query :: rest =>
      fails past (OExec query) = None ∧ all_succeed (past ++ [OExec query]) rest
  end.

(** *** Properties *)

Lemma execute_queries_cases (queries : list string) (db : PostgresDB) :
  (all_succeed (Connection db) queries ∧
   (execute_queries queries db).1 = Return None ∧
   Connection (execute_queries queries db).2 = Connection db ++ (OExec <$> queries)) ∨
  (∃ pre query post cause,
     queries = pre ++ query :: post ∧
     all_succeed (Connection db) pre ∧
     fails (Connection db ++ (OExec <$> pre)) (OExec query) = Some cause ∧
     (execute_queries queries db).1 =
       Return (Some (Wrap "failed to execute query: " cause)) ∧
     Connection (execute_queries queries db).2 =
       Connection db ++ (OExec <$> pre) ++ [OExec query]).
Proof.
  revert db. induction queries as [|query rest IH]; intros db.
  - left. cbn. by rewrite app_nil_r.
  - cbn [execute_queries perform].
    destruct (fails (Connection db) (OExec query)) as [cause|] eqn:Hq.
    + right. exists [], query, rest, cause. cbn. by rewrite app_nil_r.
    + destruct (IH {| Connection := Connection db ++ [OExec query];
                      logger := logger db |})
        as [(Hall & Hret & Hconn)|(pre & q & post & cause & -> & Hall & Hq' & Hret & Hconn)];
        cbn [Connection] in *.
      * left. split_and!; [done|done|]. rewrite Hconn, <- app_assoc. done.
      * right. exists (query :: pre), q, post, cause.
        split_and!; [done|done| |done|].
        -- by rewrite fmap_cons, (cons_middle (OExec query)), app_assoc.
        -- rewrite Hconn, fmap_cons, <- !app_assoc. done.
Qed.

Lemma migrate_cases (queries : list string) (i : Z) (db : PostgresDB) :
  (all_succeed (Connection db) queries ∧
   (migrate i queries db).1 = None ∧
   Connection (migrate i queries db).2 = Connection db ++ (OExec <$> queries)) ∨
  (∃ pre query post cause,
     queries = pre ++ query :: post ∧
     all_succeed (Connection db) pre ∧
     fails (Connection db ++ (OExec <$> pre)) (OExec query) = Some cause ∧
     (migrate i queries db).1 =
       Some (Wrap ("migration step " +:+ dec (i + Z.of_nat (length pre) + 1) +:+ " failed: ")
               cause) ∧
     Connection (migrate i queries db).2 =
       Connection db ++ (OExec <$> pre) ++ [OExec query]).
Proof.
  revert i db. induction queries as [|query rest IH]; intros i db.
  - left. cbn. by rewrite app_nil_r.
  - cbn [migrate perform log Connection logger].
    destruct (fails (Connection db) (OExec query)) as [cause|] eqn:Hq.
    + right. exists [], query, rest, cause. cbn. rewrite app_nil_r, Z.add_0_r. done.
    + destruct (IH (i + 1)
                  {| Connection := Connection db ++ [OExec query];
                     logger := logger db ++ ["Executing migration step"] |})
        as [(Hall & Hret & Hconn)|(pre & q & post & cause & -> & Hall & Hq' & Hret & Hconn)];
        cbn [Connection] in *.
      * left. split_and!; [done|done|]. rewrite Hconn, <- app_assoc. done.
      * right. exists (query :: pre), q, post, cause.
        split_and!; [done|done| | |].
        -- by rewrite fmap_cons, (cons_middle (OExec query)), app_assoc.
        -- rewrite Hret. cbn [length].
           by replace (i + 1 + Z.of_nat (length pre) + 1)
             with (i + Z.of_nat (S (length pre)) + 1) by lia.
        -- rewrite Hconn, fmap_cons, <- !app_assoc. done.
Qed.

(** X28. Once the transaction has begun, [Transaction] returns what the
    function returned and ends the transaction exactly once: with a
    commit when the function returned nil, with a rollback when it
    returned an error or panicked.  A commit that fails is logged and
    not returned: the caller is told nil. *)
Theorem Transaction_returns_outcome_of_fn (fn : PostgresDB → Outcome * PostgresDB)
    (db : PostgresDB) :
  fails (Connection db) OBegin = None →
  let begun := {| Connection := Connection db ++ [OBegin]; logger := logger db |} in
  (Transaction fn db).1 = (fn begun).1 ∧
  Connection (Transaction fn db).2 =
    Connection (fn begun).2 ++
    [match (fn begun).1 with Return None => OCommit | _ => ORollback end] ∧
  ∀ commitErr,
    (fn begun).1 = Return None →
    fails (Connection (fn begun).2) OCommit = Some commitErr →
    (Transaction fn db).1 = Return None ∧
    "Failed to commit transaction" ∈ logger (Transaction fn db).2.
Proof.
  intros Hbegin begun. unfold Transaction, perform. rewrite Hbegin. fold begun.
  destruct (fn begun) as [[[err|]|p] db1]; cbn [fst snd].
  - destruct (fails (Connection db1) ORollback); by split_and!.
  - destruct (fails (Connection db1) OCommit) as [commitErr|] eqn:Hc.
    + split_and!; [done..|]. intros e _ _. split; [done|]. cbn.
      apply elem_of_app. right. apply list_elem_of_here.
    + split_and!; [done..|]. by intros e _ [=].
  - by split_and!.
Qed.

(** X29. [ExecuteInTransaction] runs the queries in order inside one
    transaction and stops at the first that fails.  When all succeed it
    commits and returns nil; otherwise it returns the failure wrapped,
    the queries after the failing one are never sent, and the
    transaction is rolled back. *)
Theorem ExecuteInTransaction_commits_or_rolls_back (queries : list string)
    (db : PostgresDB) :
  fails (Connection db) OBegin = None →
  (all_succeed (Connection db ++ [OBegin]) queries ∧
   (ExecuteInTransaction queries db).1 = Return None ∧
   Connection (ExecuteInTransaction queries db).2 =
     Connection db ++ [OBegin] ++ (OExec <$> queries) ++ [OCommit]) ∨
  (∃ pre query post cause,
     queries = pre ++ query :: post ∧
     all_succeed (Connection db ++ [OBegin]) pre ∧
     fails (Connection db ++ [OBegin] ++ (OExec <$> pre)) (OExec query) = Some cause ∧
     (ExecuteInTransaction queries db).1 =
       Return (Some (Wrap "failed to execute query: " cause)) ∧
     Connection (ExecuteInTransaction queries db).2 =
       Connection db ++ [OBegin] ++ (OExec <$> pre) ++ [OExec query; ORollback]).
Proof.
  intros Hbegin. unfold ExecuteInTransaction, Transaction, perform. rewrite Hbegin.
  set (begun := {| Connection := Connection db ++ [OBegin]; logger := logger db |}).
  destruct (execute_queries_cases queries begun)
    as [(Hall & Hret & Hconn)|(pre & q & post & cause & Hq & Hall & Hfail & Hret & Hconn)];
    destruct (execute_queries queries begun) as [out db1]; subst begun;
    cbn [fst snd Connection] in *; subst out.
  - left. split; [done|].
    destruct (fails (Connection db1) OCommit); cbn [fst snd log Connection];
      rewrite Hconn, <- !app_assoc; done.
  - right. exists pre, q, post, cause. rewrite <- app_assoc in Hfail.
    split_and!; [done..| |].
    + by destruct (fails (Connection db1) ORollback).
    + destruct (fails (Connection db1) ORollback); cbn [fst snd log Connection];
        rewrite Hconn, <- !app_assoc; done.
Qed.

(** X30. [MigrateSchema] runs the steps in order outside any transaction
    and stops at the first that fails.  The error names that step,
    counting from 1; the steps before it have been executed and stay
    executed, the steps after it are never sent. *)
Theorem MigrateSchema_stops_at_first_failure (migrationQueries : list string)
    (db : PostgresDB) :
  (all_succeed (Connection db) migrationQueries ∧
   (MigrateSchema migrationQueries db).1 = None ∧
   Connection (MigrateSchema migrationQueries db).2 =
     Connection db ++ (OExec <$> migrationQueries)) ∨
  (∃ pre query post cause,
     migrationQueries = pre ++ query :: post ∧
     all_succeed (Connection db) pre ∧
     fails (Connection db ++ (OExec <$> pre)) (OExec query) = Some cause ∧
     (MigrateSchema migrationQueries db).1 =
       Some (Wrap ("migration step " +:+ dec (Z.of_nat (length pre) + 1) +:+ " failed: ")
               cause) ∧
     Connection (MigrateSchema migrationQueries db).2 =
       Connection db ++ (OExec <$> pre) ++ [OExec query]).
Proof.
  unfold MigrateSchema.
  set (started := log "Starting database migration..." db).
  destruct (migrate_cases migrationQueries 0 started)
    as [(Hall & Hret & Hconn)|(pre & q & post & cause & Hq & Hall & Hfail & Hret & Hconn)];
    destruct (migrate 0 migrationQueries started) as [out db1]; subst started;
    cbn [fst snd log Connection] in *; subst out.
  - left. by split_and!.
  - right. exists pre, q, post, cause. by split_and!.
Qed.

End Driver.

(** *** On a concrete driver *)

(** A database on which every statement that starts with DROP fails,
    and so does every commit. *)
Definition picky (past : list Op) (op : Op) : option error :=
  match op with
  | OExec query =>
      if String.prefix "DROP" query then Some (Lib (sql_Failure "permission denied"))
      else None
  | OCommit => Some (Lib (sql_Failure "connection lost"))
  | _ => None
  end.

Definition new_connection : PostgresDB := {| Connection := []; logger := [] |}.

Lemma Transaction_returns_outcome_of_fn_witness :
  let fn := execute_queries picky ["CREATE TABLE t (id int)"] in
  let begun := {| Connection := Connection new_connection ++ [OBegin];
                  logger := logger new_connection |} in
  (Transaction picky fn new_connection).1 = (fn begun).1 ∧
  Connection (Transaction picky fn new_connection).2 =
    Connection (fn begun).2 ++
    [match (fn begun).1 with Return None => OCommit | _ => ORollback end] ∧
  ∀ commitErr,
    (fn begun).1 = Return None →
    picky (Connection (fn begun).2) OCommit = Some commitErr →
    (Transaction picky fn new_connection).1 = Return None ∧
    "Failed to commit transaction" ∈ logger (Transaction picky fn new_connection).2.
Proof.
  apply (Transaction_returns_outcome_of_fn picky
           (execute_queries picky ["CREATE TABLE t (id int)"]) new_connection).
  reflexivity.
Defined.

(** The commit fails and the caller is told nil. *)
Lemma failed_commit_is_not_reported :
  ExecuteInTransaction picky ["CREATE TABLE t (id int)"] new_connection =
  (Return None,
   {| Connection := [OBegin; OExec "CREATE TABLE t (id int)"; OCommit];
      logger := ["Failed to commit transaction"] |}) ∧
  picky [OBegin; OExec "CREATE TABLE t (id int)"] OCommit =
    Some (Lib (sql_Failure "connection lost")).
Proof. split; by vm_compute. Qed.

Lemma ExecuteInTransaction_commits_or_rolls_back_witness :
  (all_succeed picky (Connection new_connection ++ [OBegin]) ["CREATE TABLE t (id int)"; "DROP TABLE u"] ∧
   (ExecuteInTransaction picky ["CREATE TABLE t (id int)"; "DROP TABLE u"] new_connection).1
     = Return None ∧
   Connection (ExecuteInTransaction picky ["CREATE TABLE t (id int)"; "DROP TABLE u"]
                 new_connection).2 =
     Connection new_connection ++ [OBegin]
     ++ (OExec <$> ["CREATE TABLE t (id int)"; "DROP TABLE u"]) ++ [OCommit]) ∨
  (∃ pre query post cause,
     ["CREATE TABLE t (id int)"; "DROP TABLE u"] = pre ++ query :: post ∧
     all_succeed picky (Connection new_connection ++ [OBegin]) pre ∧
     picky (Connection new_connection ++ [OBegin] ++ (OExec <$> pre)) (OExec query)
       = Some cause ∧
     (ExecuteInTransaction picky ["CREATE TABLE t (id int)"; "DROP TABLE u"] new_connection).1
       = Return (Some (Wrap "failed to execute query: " cause)) ∧
     Connection (ExecuteInTransaction picky ["CREATE TABLE t (id int)"; "DROP TABLE u"]
                   new_connection).2 =
       Connection new_connection ++ [OBegin] ++ (OExec <$> pre)
       ++ [OExec query; ORollback]).
Proof.
  apply (ExecuteInTransaction_commits_or_rolls_back picky
           ["CREATE TABLE t (id int)"; "DROP TABLE u"] new_connection).
  reflexivity.
Defined.

(** A migration whose second step fails: the first step stays applied. *)
Lemma migration_fails_at_step_two :
  MigrateSchema picky ["CREATE TABLE t (id int)"; "DROP TABLE u"; "CREATE TABLE v (id int)"]
    new_connection =
  (Some (Wrap "migration step 2 failed: " (Lib (sql_Failure "permission denied"))),
   {| Connection := [OExec "CREATE TABLE t (id int)"; OExec "DROP TABLE u"];
      logger := ["Starting database migration..."; "Executing migration step";
                 "Executing migration step"; "Migration failed"] |}).
Proof. by vm_compute. Qed.

End Postgres.
